(** * Mod-union tables and the RosAlloc space of the ART runtime

    A shallow embedding of
      - runtime/gc/accounting/mod_union_table.cc
      - runtime/gc/space/rosalloc_space.cc
      - runtime/gc/space/space.h (ContinuousSpace)
    Addresses ([byte*], [Object*], [Object**]) are integers, [nullptr] is 0.
    Memory is a total map from addresses to the value stored there; the C++
    containers are finite sets and maps iterated in ascending key order. *)

From stdpp Require Import gmap sorting list list_numbers strings.

Local Open Scope Z_scope.

(** ** Memory and C++ containers *)

Definition nullptr : Z := 0.

Definition Mem : Type := Z → Z.

Definition store (m : Mem) (a v : Z) : Mem :=
  λ x, if decide (x = a) then v else m x.

(** [std::set<byte*, std::less<byte*>>]: iteration visits the keys in
    ascending address order. *)
Definition set_iter (s : gset Z) : list Z := merge_sort Z.le (elements s).

Definition key_le {A} (x y : Z * A) : Prop := x.1 ≤ y.1.

#[global] Instance key_le_dec {A} (x y : Z * A) : Decision (key_le x y).
Proof. unfold key_le. apply _. Defined.

(** [SafeMap<const byte*, std::vector<Object**>>] wraps a [std::map]:
    iteration visits the entries in ascending key order. *)
Definition map_iter {A} (m : gmap Z A) : list (Z * A) :=
  merge_sort key_le (map_to_list m).

(** ** The card table *)

Module CardTable.

(** The constants of [CardTable] and the ageing functor [AgeCardVisitor]:
    card_table.h is not among the sources, so they are parameters of the
    development. *)
Class Consts := {
  kCardClean : Z;
  kCardDirty : Z;
  kCardShift : Z;
  biased_begin_ : Z;
  AgeCardVisitor : Z → Z
}.

Section card_table.
Context {consts : Consts}.

Definition kCardSize : Z := 1 ≪ kCardShift.

(** Modelled from the spec: [CardTable::CardFromAddr], the card of an
  address is [card_table[(address >> shift)]]. *)
Definition CardFromAddr (addr : Z) : Z := biased_begin_ + (addr ≫ kCardShift).

(** Modelled from the spec: [CardTable::AddrFromCard], the base address
  of the memory range a card stands for. *)
Definition AddrFromCard (card : Z) : Z := (card - biased_begin_) ≪ kCardShift.

(** Modelled from the spec: the cards of [CardTable::ModifyCardsAtomic],
  every card fully or partially overlapping [[scan_begin, scan_end)],
  in address order. *)
Definition scanned_cards (scan_begin scan_end : Z) : list Z :=
  if decide (scan_begin < scan_end)
  then seqZ (CardFromAddr scan_begin)
            (CardFromAddr (scan_end - 1) - CardFromAddr scan_begin + 1)
  else [].

(** One atomic read-transform-write of a card, reporting the old and the
  new byte to [modified]. *)
Definition modify_card {S} (visitor : Z → Z) (modified : Z → Z → Z → S → S)
    (st : Mem * S) (card : Z) : Mem * S :=
  let expected := st.1 card in
  let new_value := visitor expected in
  (store st.1 card new_value, modified card expected new_value st.2).

Definition modify_cards {S} (visitor : Z → Z) (modified : Z → Z → Z → S → S)
    (card_table : Mem) (s : S) (cards : list Z) : Mem * S :=
  foldl (modify_card visitor modified) (card_table, s) cards.

(** Modelled from the spec: [CardTable::ModifyCardsAtomic] (card_table-inl.h
  is not among the sources). For every card overlapping the range: read
  the current byte, compute the new value with [visitor], write it back,
  and pass the card with its old and new byte to [modified]. *)
Definition ModifyCardsAtomic {S} (card_table : Mem) (scan_begin scan_end : Z)
    (visitor : Z → Z) (modified : Z → Z → Z → S → S) (s : S) : Mem * S :=
  modify_cards visitor modified card_table s (scanned_cards scan_begin scan_end).

(** The reports of a transform: (card, byte observed, byte written). *)
Definition record_observation (card expected new_value : Z)
    (tr : list (Z * Z * Z)) : list (Z * Z * Z) :=
  tr ++ [(card, expected, new_value)].

Definition observations (card_table : Mem) (visitor : Z → Z) (cards : list Z)
    : list (Z * Z * Z) :=
  (modify_cards visitor record_observation card_table [] cards).2.

Definition observed (card_table : Mem) (scan_begin scan_end : Z) : list (Z * Z * Z) :=
  observations card_table AgeCardVisitor (scanned_cards scan_begin scan_end).

(** Modelled from the spec: [CardTable::MarkCard], the write barrier sets
  the card of an address to Dirty. *)
Definition MarkCard (card_table : Mem) (addr : Z) : Mem :=
  store card_table (CardFromAddr addr) kCardDirty.
End card_table.

End CardTable.

Import CardTable.

(** ** The mod-union tables: clearing cards *)

(** What the tables ask of the rest of the collector. [AddReference] is the
    virtual predicate of [ModUnionTableReferenceCache]; [ref_offsets] gives
    the offsets of the reference fields that
    [MarkSweep::VisitObjectReferences] visits in an object, in visiting
    order; [IsLiveObjectLocked] is the heap's liveness test. None of them is
    among the sources. *)
Class Collector := {
  AddReference : Z → Z → bool;
  ref_offsets : Z → list Z;
  IsLiveObjectLocked : Z → bool
}.

(** The part of the heap the tables read and write. The live bitmaps of
    the continuous spaces cover disjoint address ranges, so they are kept as
    one set: [FindContinuousSpaceFromObject(start)->GetLiveBitmap()] and
    [space_->GetLiveBitmap()] are only ever walked over the range of a card. *)
Record Heap := {
  card_table : Mem;           (* the byte of every card *)
  memory : Mem;               (* the reference stored in every slot *)
  live_bitmap : gset Z        (* addresses of the objects marked live *)
}.

(** The source region of a table ([space_]). *)
Record ContinuousSpace := {
  begin_ : Z;
  end_ : Z;
  limit_ : Z
}.

Definition Begin (s : ContinuousSpace) : Z := begin_ s.
Definition End (s : ContinuousSpace) : Z := end_ s.
Definition Limit (s : ContinuousSpace) : Z := limit_ s.
Definition Capacity (s : ContinuousSpace) : Z := Limit s - Begin s.
Definition HasAddress (s : ContinuousSpace) (obj : Z) : bool :=
  bool_decide (Begin s ≤ obj) && bool_decide (obj < Limit s).
Definition Contains (s : ContinuousSpace) (obj : Z) : bool := HasAddress s obj.

Section clear_cards.
Context {consts : Consts}.

(** [ModUnionClearCardSetVisitor::operator()] on a [CardSet]. *)
Definition ModUnionClearCardSetVisitor (card expected_value new_value : Z)
    (cleared_cards : gset Z) : gset Z :=
  if decide (expected_value = kCardDirty)
  then {[card]} ∪ cleared_cards
  else cleared_cards.

(** [ModUnionClearCardVisitor::operator()] on a [std::vector<byte*>]
  (defined in the source, used by neither table). *)
Definition ModUnionClearCardVisitor (card expected_card new_card : Z)
    (cleared_cards : list Z) : list Z :=
  if decide (expected_card = kCardDirty)
  then cleared_cards ++ [card]
  else cleared_cards.

(** A card was observed as Dirty by the transform of [ClearCards] over the
  region [sp]: the transform reported it with [kCardDirty] as old byte. *)
Definition observed_dirty (h : Heap) (sp : ContinuousSpace) (card : Z) : Prop :=
  ∃ new_value, (card, kCardDirty, new_value) ∈ observed (card_table h) (Begin sp) (End sp).
End clear_cards.

(** ** Walking the live objects of a card *)

Section visiting.
Context {consts : Consts} {collector : Collector}.

(** [SpaceBitmap::VisitMarkedRange(visit_begin, visit_end, visitor)]: the
    marked objects whose address lies in [[visit_begin, visit_end)], in
    ascending address order (space_bitmap-inl.h is not among the sources). *)
Definition VisitMarkedRange (bitmap : gset Z) (visit_begin visit_end : Z) : list Z :=
  filter (λ obj, visit_begin ≤ obj < visit_end) (set_iter bitmap).

(** [Object::GetFieldObjectAddr(offset)]: the address of a field. *)
Definition GetFieldObjectAddr (obj offset : Z) : Z := obj + offset.

(** [MarkSweep::VisitObjectReferences(obj, visitor, true)]: for every
    reference field of [obj], in order, read the reference stored in it and
    call [visitor(obj, ref, offset, is_static)]. The state carries the memory
    the field is read from, since a visitor may write fields. *)
Definition VisitObjectReferences {S} (mem_of : S → Mem) (obj : Z)
    (visitor : Z → Z → Z → S → S) (s : S) : S :=
  foldl (λ s offset, visitor obj (mem_of s (GetFieldObjectAddr obj offset)) offset s)
        s (ref_offsets obj).

(** [AddToReferenceArrayVisitor::operator()]. *)
Definition AddToReferenceArrayVisitor (obj ref offset : Z) (references : list Z) : list Z :=
  if bool_decide (ref ≠ nullptr) && AddReference obj ref
  then references ++ [GetFieldObjectAddr obj offset]
  else references.

(** [ModUnionReferenceVisitor::operator()]. *)
Definition ModUnionReferenceVisitor (mem : Mem) (references : list Z) (obj : Z) : list Z :=
  VisitObjectReferences (λ _, mem) obj AddToReferenceArrayVisitor references.

(** The body of the first loop of
    [ModUnionTableReferenceCache::UpdateAndMarkReferences] up to the bitmap
    walk: [cards_references] is cleared, then filled by the [add_visitor]. *)
Definition cards_references (h : Heap) (card : Z) : list Z :=
  let start := AddrFromCard card in
  let end' := start + kCardSize in
  foldl (ModUnionReferenceVisitor (memory h)) []
        (VisitMarkedRange (live_bitmap h) start end').

(** The rest of that loop body: update [references_] for the card. *)
Definition update_card (h : Heap) (references : gmap Z (list Z)) (card : Z)
    : gmap Z (list Z) :=
  let refs := cards_references h card in
  match references !! card with
  | None =>
      if bool_decide (refs = [])
      then references                      (* No reason to add empty array. *)
      else <[card := refs]> references     (* references_.Put(card, cards_references) *)
  | Some _ => <[card := refs]> references  (* found->second = cards_references *)
  end.

(** The spec's words for what is recorded: the slots of a live object that
    hold a reference which is not null and which [AddReference] accepts,
    in field order ... *)
Definition qualifying_slots (mem : Mem) (obj : Z) : list Z :=
  GetFieldObjectAddr obj <$>
    filter (λ offset, mem (GetFieldObjectAddr obj offset) ≠ nullptr
                      ∧ AddReference obj (mem (GetFieldObjectAddr obj offset)) = true)
           (ref_offsets obj).

(** ... for every live object under the card, in address order. *)
Definition qualifying_slots_of_card (h : Heap) (card : Z) : list Z :=
  VisitMarkedRange (live_bitmap h) (AddrFromCard card) (AddrFromCard card + kCardSize)
    ≫= qualifying_slots (memory h).

(** The entry of a card after the update of [references_], from the entry
    before and the recomputed slots. *)
Definition entry_after (old : option (list Z)) (fresh : list Z) : option (list Z) :=
  match old with
  | None => if bool_decide (fresh = []) then None else Some fresh
  | Some _ => Some fresh
  end.

End visiting.

(** ** Calling the mark visitor *)

(** The state threaded through the calls of a [RootVisitor]
    ([Object* visitor(Object* obj, void* arg)]): the memory, what [arg]
    points to, and the objects the visitor has been called on so far. *)
Record MarkState (A : Type) := {
  ms_memory : Mem;
  ms_arg : A;
  ms_calls : list Z
}.
Arguments ms_memory {A} _.
Arguments ms_arg {A} _.
Arguments ms_calls {A} _.

Section marking.
Context {consts : Consts} {collector : Collector} {A : Type}.
Variable visitor : Z → A → Z * A.

(** [visitor(obj, arg)] and the conditional write of its result to [slot]. *)
Definition call_visitor (slot obj : Z) (s : MarkState A) : MarkState A :=
  let r := visitor obj (ms_arg s) in
  let new_obj := r.1 in
  {| ms_memory := if decide (new_obj ≠ obj)
                  then store (ms_memory s) slot new_obj
                  else ms_memory s;
     ms_arg := r.2;
     ms_calls := ms_calls s ++ [obj] |}.

(** The inner loop body of the second loop of
    [ModUnionTableReferenceCache::UpdateAndMarkReferences]. *)
Definition mark_slot (s : MarkState A) (obj_ptr : Z) : MarkState A :=
  let obj := ms_memory s obj_ptr in
  if decide (obj ≠ nullptr) then call_visitor obj_ptr obj s else s.

(** [ModUnionUpdateObjectReferencesVisitor::operator()]. *)
Definition ModUnionUpdateObjectReferencesVisitor (obj ref offset : Z)
    (s : MarkState A) : MarkState A :=
  if decide (ref ≠ nullptr)
  then call_visitor (GetFieldObjectAddr obj offset) ref s
  else s.

(** [ModUnionScanImageRootVisitor::operator()]. *)
Definition ModUnionScanImageRootVisitor (s : MarkState A) (root : Z) : MarkState A :=
  VisitObjectReferences ms_memory root ModUnionUpdateObjectReferencesVisitor s.

End marking.

(** ** Runs that log and may abort *)

(** A run of a function that writes to a log and either returns or aborts
    the process ([LOG(FATAL)], a failed [CHECK]). *)
Inductive Outcome (A : Type) :=
| Returned (a : A)
| Aborted.
Arguments Returned {A} _.
Arguments Aborted {A}.

Definition Run (E A : Type) : Type := list E * Outcome A.

Definition ret {E A} (a : A) : Run E A := ([], Returned a).

Definition emit {E} (e : E) : Run E unit := ([e], Returned tt).

Definition abort {E A} : Run E A := ([], Aborted).

Definition bind {E A B} (m : Run E A) (f : A → Run E B) : Run E B :=
  match m.2 with
  | Returned a => (m.1 ++ (f a).1, (f a).2)
  | Aborted => (m.1, Aborted)
  end.

Notation "m ;; k" := (bind m (λ _, k)) (at level 100, k at level 200, right associativity).

(** A range-based [for] whose body may abort. *)
Fixpoint for_each {E X} (body : X → Run E unit) (l : list X) : Run E unit :=
  match l with
  | [] => ret tt
  | x :: l' => body x ;; for_each body l'
  end.

(** A run that either returns without a word or aborts with a log that
    satisfies [P]. *)
Definition quiet_or {E} (P : list E → Prop) (m : Run E unit) : Prop :=
  m = ret tt ∨ ∃ log, m = (log, Aborted) ∧ P log.

(** ** The reference-cache table *)

(** What [Verify] writes before it aborts. *)
Inductive VerifyEvent :=
| CheckFailed (obj : Z)          (* CHECK(heap_->IsLiveObjectLocked( *ref)) failed *)
| LogInfoObject (obj ref : Z)    (* "Object obj References ref without being in mod-union table" *)
| LogInfoFromSpace (obj : Z)     (* "FromSpace ... type ..." *)
| LogInfoToSpace (ref : Z)       (* "ToSpace ... type ..." *)
| DumpSpaces                     (* GetHeap()->DumpSpaces() *)
| LogFatal.                      (* LOG(FATAL) << "FATAL ERROR" *)

Module ModUnionTableReferenceCache.

Record t := {
  space_ : ContinuousSpace;
  cleared_cards_ : gset Z;
  references_ : gmap Z (list Z)
}.

Record Updated (A : Type) := {
  heap_after : Heap;
  table_after : t;
  arg_after : A;
  visitor_calls : list Z;
  count : Z
}.
Arguments heap_after {A} _.
Arguments table_after {A} _.
Arguments arg_after {A} _.
Arguments visitor_calls {A} _.
Arguments count {A} _.

Section ops.
Context {consts : Consts} {collector : Collector}.

(** [ModUnionTableReferenceCache::ClearCards]. *)
Definition ClearCards (h : Heap) (tbl : t) : Heap * t :=
  let r := ModifyCardsAtomic (card_table h) (Begin (space_ tbl)) (End (space_ tbl))
             AgeCardVisitor ModUnionClearCardSetVisitor (cleared_cards_ tbl) in
  ({| card_table := r.1; memory := memory h; live_bitmap := live_bitmap h |},
   {| space_ := space_ tbl; cleared_cards_ := r.2; references_ := references_ tbl |}).

(** The first loop of [UpdateAndMarkReferences]. *)
Definition recompute (h : Heap) (tbl : t) : gmap Z (list Z) :=
  foldl (update_card h) (references_ tbl) (set_iter (cleared_cards_ tbl)).

(** [ModUnionTableReferenceCache::UpdateAndMarkReferences]: the heap and
    the table afterwards, what [arg] points to, the objects the visitor was
    called on, and the [count] that is logged. *)
Definition UpdateAndMarkReferences {A} (visitor : Z → A → Z * A) (arg : A)
    (h : Heap) (tbl : t) : Updated A :=
  let references := recompute h tbl in
  let s := foldl (λ s ref, foldl (mark_slot visitor) s ref.2)
                 {| ms_memory := memory h; ms_arg := arg; ms_calls := [] |}
                 (map_iter references) in
  {| heap_after := {| card_table := card_table h; memory := ms_memory s;
                      live_bitmap := live_bitmap h |};
     table_after := {| space_ := space_ tbl; cleared_cards_ := ∅;
                       references_ := references |};
     arg_after := ms_arg s;
     visitor_calls := ms_calls s;
     count := foldl (λ n ref, n + Z.of_nat (length ref.2)) 0 (map_iter references) |}.

(** [CheckReferenceVisitor::operator()]. *)
Definition CheckReferenceVisitor (references : gset Z) (obj ref : Z) : Run VerifyEvent unit :=
  if bool_decide (ref ≠ nullptr) && AddReference obj ref && bool_decide (ref ∉ references)
  then emit (LogInfoObject obj ref) ;; emit (LogInfoFromSpace obj) ;;
       emit (LogInfoToSpace ref) ;; emit DumpSpaces ;; emit LogFatal ;; abort
  else ret tt.

(** [ModUnionCheckReferences::operator()]. *)
Definition ModUnionCheckReferences (mem : Mem) (references : gset Z) (obj : Z)
    : Run VerifyEvent unit :=
  for_each (λ offset, CheckReferenceVisitor references obj
                        (mem (GetFieldObjectAddr obj offset)))
           (ref_offsets obj).

(** First loop of [Verify]: [CHECK(heap_->IsLiveObjectLocked( *ref))]. *)
Definition check_live (h : Heap) (ref : Z) : Run VerifyEvent unit :=
  if IsLiveObjectLocked (memory h ref)
  then ret tt
  else emit (CheckFailed (memory h ref)) ;; abort.

(** Body of the second loop of [Verify]. *)
Definition check_card (h : Heap) (ref_pair : Z * list Z) : Run VerifyEvent unit :=
  let card := ref_pair.1 in
  if decide (card_table h card = kCardClean) then
    let reference_set : gset Z := list_to_set (memory h <$> ref_pair.2) in
    let start := AddrFromCard card in
    for_each (ModUnionCheckReferences (memory h) reference_set)
             (VisitMarkedRange (live_bitmap h) start (start + kCardSize))
  else ret tt.

(** [ModUnionTableReferenceCache::Verify]. *)
Definition Verify (h : Heap) (tbl : t) : Run VerifyEvent unit :=
  for_each (λ ref_pair : Z * list Z, for_each (check_live h) ref_pair.2)
           (map_iter (references_ tbl)) ;;
  for_each (check_card h) (map_iter (references_ tbl)).

(** Every recorded slot holds a live object. *)
Definition all_recorded_live (h : Heap) (tbl : t) : Prop :=
  ∀ card slots slot,
    references_ tbl !! card = Some slots → slot ∈ slots →
    IsLiveObjectLocked (memory h slot) = true.

(** The live object [obj], under a card of the table that is Clean, holds
    in one of its fields the reference [ref], which is not null, which
    [AddReference] accepts and which no slot recorded for the card holds. *)
Definition escaped (h : Heap) (tbl : t) (obj ref : Z) : Prop :=
  ∃ card slots offset,
    references_ tbl !! card = Some slots
    ∧ card_table h card = kCardClean
    ∧ obj ∈ VisitMarkedRange (live_bitmap h) (AddrFromCard card)
                             (AddrFromCard card + kCardSize)
    ∧ offset ∈ ref_offsets obj
    ∧ ref = memory h (GetFieldObjectAddr obj offset)
    ∧ ref ≠ nullptr
    ∧ AddReference obj ref = true
    ∧ ref ∉ (memory h <$> slots).

(** What [CheckReferenceVisitor] writes before it aborts. *)
Definition fatal_log (obj ref : Z) : list VerifyEvent :=
  [LogInfoObject obj ref; LogInfoFromSpace obj; LogInfoToSpace ref; DumpSpaces; LogFatal].

End ops.

End ModUnionTableReferenceCache.

(** ** The card-cache table *)

Module ModUnionTableCardCache.

Record t := {
  space_ : ContinuousSpace;
  cleared_cards_ : gset Z
}.

Section ops.
Context {consts : Consts} {collector : Collector}.

(** [ModUnionTableCardCache::ClearCards]: it hands [&cleared_cards_] to a
    [ModUnionClearCardSetVisitor], so the member is a [CardSet]. *)
Definition ClearCards (h : Heap) (tbl : t) : Heap * t :=
  let r := ModifyCardsAtomic (card_table h) (Begin (space_ tbl)) (End (space_ tbl))
             AgeCardVisitor ModUnionClearCardSetVisitor (cleared_cards_ tbl) in
  ({| card_table := r.1; memory := memory h; live_bitmap := live_bitmap h |},
   {| space_ := space_ tbl; cleared_cards_ := r.2 |}).

(** [ModUnionTableCardCache::UpdateAndMarkReferences]: the table itself is
    left as it is; the result is the memory, the visitor's argument and the
    objects the visitor was called on. *)
Definition UpdateAndMarkReferences {A} (visitor : Z → A → Z * A) (arg : A)
    (h : Heap) (tbl : t) : MarkState A :=
  foldl (λ s card_addr,
           let start := AddrFromCard card_addr in
           foldl (ModUnionScanImageRootVisitor visitor) s
                 (VisitMarkedRange (live_bitmap h) start (start + kCardSize)))
        {| ms_memory := memory h; ms_arg := arg; ms_calls := [] |}
        (set_iter (cleared_cards_ tbl)).

(** The cards a [ClearCards] call finds Dirty, in the order it finds them. *)
Definition discovered (h : Heap) (tbl : t) : list Z :=
  (λ o : Z * Z * Z, o.1.1) <$>
    filter (λ o : Z * Z * Z, o.1.2 = kCardDirty)
           (observed (card_table h) (Begin (space_ tbl)) (End (space_ tbl))).

(** A history of collections: before each [ClearCards] the mutators write
    to the given addresses and the write barrier marks their cards. The
    result is the table and the cards in the order they were discovered. *)
Fixpoint clear_cards_history (rounds : list (list Z)) (h : Heap) (tbl : t)
    (found : list Z) : Heap * t * list Z :=
  match rounds with
  | [] => (h, tbl, found)
  | writes :: rounds' =>
      let h1 := {| card_table := foldl MarkCard (card_table h) writes;
                   memory := memory h; live_bitmap := live_bitmap h |} in
      let r := ClearCards h1 tbl in
      clear_cards_history rounds' r.1 r.2 (found ++ discovered h1 tbl)
  end.

End ops.

End ModUnionTableCardCache.

(** ** The allocator behind a RosAlloc space *)

Module RosAlloc.

(** [allocator::RosAlloc] as the space uses it (rosalloc.h and rosalloc.cc
    are not among the sources). [Alloc num_bytes] gives the object (or
    [nullptr]), the bytes allocated and the allocator afterwards. *)
Class Ops (R : Type) := {
  Footprint : R → Z;
  FootprintLimit : R → Z;
  SetFootprintLimit : Z → R → R;
  Alloc : Z → R → Z * Z * R
}.

(** Modelled from the spec: the footprint limit is a soft cap kept apart
    from the realized footprint; it can grow up to the capacity and shrink
    back down, so setting it stores the value asked for and leaves the
    footprint as it is. *)
Class Laws (R : Type) {ops : Ops R} : Prop := {
  FootprintLimit_Set n r : FootprintLimit (SetFootprintLimit n r) = n;
  Footprint_Set n r : Footprint (SetFootprintLimit n r) = Footprint r
}.

(** Modelled from the spec: a segregated-fits allocator reduced to its
    footprint accounting. An allocation that fits under the limit succeeds
    and raises the footprint by the pages it needs; one that does not fit
    returns [nullptr]. *)
Record Simple := {
  base : Z;
  footprint : Z;
  footprint_limit : Z;
  used : Z
}.

Definition simple_alloc (num_bytes : Z) (r : Simple) : Z * Z * Simple :=
  if decide (used r + num_bytes ≤ footprint_limit r)
  then (base r + used r, num_bytes,
        {| base := base r;
           footprint := Z.max (footprint r) (used r + num_bytes);
           footprint_limit := footprint_limit r;
           used := used r + num_bytes |})
  else (nullptr, 0, r).

#[global] Instance simple_ops : Ops Simple := {
  Footprint := footprint;
  FootprintLimit := footprint_limit;
  SetFootprintLimit n r :=
    {| base := base r; footprint := footprint r; footprint_limit := n; used := used r |};
  Alloc := simple_alloc
}.

End RosAlloc.

(** ** The RosAlloc space *)

Inductive Severity := INFO | ERROR | FATAL.

(** A line of the log: its severity, its text and the space it is about. *)
Record LogLine := {
  severity : Severity;
  text : string;
  about : string
}.

Module RosAllocSpace.

Record t (R : Type) := {
  name_ : string;
  space_ : ContinuousSpace;
  growth_limit_ : Z;
  rosalloc_ : R;
  valgrind_ : bool            (* built as a [ValgrindMallocSpace] *)
}.
Arguments name_ {R} _.
Arguments space_ {R} _.
Arguments growth_limit_ {R} _.
Arguments rosalloc_ {R} _.
Arguments valgrind_ {R} _.

(** What [Create] gets from the operating system and the runtime. *)
Record MemMap := {
  map_begin : Z;
  map_initial_size : Z;
  map_growth_limit : Z;
  map_capacity : Z
}.

Record Env (R : Type) := {
  vlog_heap : bool;
  vlog_startup : bool;
  size_t_bits : Z;
  (* MallocSpace::CreateMemMap(name, starting_size, &initial_size,
     &growth_limit, &capacity, requested_begin) *)
  CreateMemMap : string → Z → Z → Z → Z → Z → option MemMap;
  (* new RosAlloc(begin, morecore_start, page_release_mode) *)
  new_RosAlloc : Z → Z → bool → option R;
  (* CHECK_MEMORY_CALL(mprotect, (end, size, PROT_NONE), name) *)
  check_mprotect : Z → Z → Run LogLine unit;
  running_on_valgrind : bool
}.
Arguments vlog_heap {R} _.
Arguments vlog_startup {R} _.
Arguments size_t_bits {R} _.
Arguments CreateMemMap {R} _.
Arguments new_RosAlloc {R} _.
Arguments check_mprotect {R} _.
Arguments running_on_valgrind {R} _.

Definition kPageSize : Z := 4096.

Section ops.
Context {R : Type} {ops : RosAlloc.Ops R}.

(** [kDebugSpaces] is [kIsDebugBuild], which the build decides. The virtual
    [Capacity()] of the space is a parameter: malloc_space.h, which may
    override [ContinuousSpace]'s definition, is not among the sources. *)
Variable kDebugSpaces : bool.
Variable Capacity : t R → Z.

Definition with_rosalloc (sp : t R) (r : R) : t R :=
  {| name_ := name_ sp; space_ := space_ sp; growth_limit_ := growth_limit_ sp;
     rosalloc_ := r; valgrind_ := valgrind_ sp |}.

(** [RosAllocSpace::AllocWithoutGrowthLocked] (rosalloc_space-inl.h is not
    among the sources): the allocation is the allocator's. *)
Definition AllocWithoutGrowthLocked (num_bytes : Z) (r : R) : Z * Z * R :=
  RosAlloc.Alloc num_bytes r.

(** [RosAllocSpace::AllocWithGrowth]: the space afterwards, and the object
    with the bytes allocated unless the final [CHECK] aborts. *)
Definition AllocWithGrowth (num_bytes : Z) (sp : t R) : t R * Outcome (Z * Z) :=
  let max_allowed := Capacity sp in
  let r1 := RosAlloc.SetFootprintLimit max_allowed (rosalloc_ sp) in
  let a := AllocWithoutGrowthLocked num_bytes r1 in
  let result := a.1.1 in
  let r2 := a.2 in
  let footprint := RosAlloc.Footprint r2 in
  let r3 := RosAlloc.SetFootprintLimit footprint r2 in
  (with_rosalloc sp r3,
   if negb kDebugSpaces || bool_decide (result = nullptr) || Contains (space_ sp) result
   then Returned (result, a.1.2)
   else Aborted).

(** [RosAllocSpace::GetFootprint]. *)
Definition GetFootprint (sp : t R) : Z := RosAlloc.Footprint (rosalloc_ sp).

(** [RosAllocSpace::GetFootprintLimit]. *)
Definition GetFootprintLimit (sp : t R) : Z := RosAlloc.FootprintLimit (rosalloc_ sp).

(** [RosAllocSpace::SetFootprintLimit]. *)
Definition SetFootprintLimit (new_size : Z) (sp : t R) : t R :=
  let current_space_size := RosAlloc.Footprint (rosalloc_ sp) in
  let new_size := if decide (new_size < current_space_size)
                  then current_space_size else new_size in
  with_rosalloc sp (RosAlloc.SetFootprintLimit new_size (rosalloc_ sp)).

(** [RosAllocSpace::CreateRosAlloc]. *)
Definition CreateRosAlloc (env : Env R) (begin morecore_start initial_size : Z)
    (low_memory_mode : bool) : Run LogLine (option R) :=
  match new_RosAlloc env begin morecore_start low_memory_mode with
  | Some rosalloc => ret (Some (RosAlloc.SetFootprintLimit initial_size rosalloc))
  | None =>
      emit {| severity := ERROR; text := "RosAlloc::Create failed";
              about := EmptyString |} ;;
      ret None
  end.

(** [RosAllocSpace::Create]. *)
Definition Create (env : Env R) (name : string)
    (initial_size growth_limit capacity requested_begin : Z)
    (low_memory_mode : bool) : Run LogLine (option (t R)) :=
  (if vlog_startup env
   then emit {| severity := INFO; text := "RosAllocSpace::Create entering"; about := name |}
   else ret tt) ;;
  let starting_size := kPageSize in
  match CreateMemMap env name starting_size initial_size growth_limit capacity
                     requested_begin with
  | None =>
      emit {| severity := ERROR; text := "Failed to create mem map for alloc space";
              about := name |} ;;
      ret None
  | Some mem_map =>
      let initial_size := map_initial_size mem_map in
      let growth_limit := map_growth_limit mem_map in
      let capacity := map_capacity mem_map in
      bind (CreateRosAlloc env (map_begin mem_map) starting_size initial_size
                           low_memory_mode)
        (λ rosalloc,
           match rosalloc with
           | None =>
               emit {| severity := ERROR;
                       text := "Failed to initialize rosalloc for alloc space";
                       about := name |} ;;
               ret None
           | Some rosalloc =>
               let end' := map_begin mem_map + starting_size in
               (if decide (0 < (capacity - initial_size) `mod` 2 ^ size_t_bits env)
                then check_mprotect env end'
                       ((capacity - initial_size) `mod` 2 ^ size_t_bits env)
                else ret tt) ;;
               let begin := map_begin mem_map in
               let space :=
                 {| name_ := name;
                    space_ := {| begin_ := begin; end_ := end'; limit_ := begin + capacity |};
                    growth_limit_ := growth_limit;
                    rosalloc_ := rosalloc;
                    valgrind_ := running_on_valgrind env |} in
               (if vlog_heap env || vlog_startup env
                then emit {| severity := INFO; text := "RosAllocSpace::Create exiting";
                             about := name |}
                else ret tt) ;;
               ret (Some space)
           end)
  end.

End ops.

End RosAllocSpace.

(** ** A small heap to run the definitions on *)

(** Cards of 128 bytes, Dirty is 0x70, Clean is 0; ageing sends Dirty to
    Dirty - 1 and every other byte to Clean. The table of card bytes sits at
    address 1000. *)
Definition example_consts : Consts := {|
  kCardClean := 0;
  kCardDirty := 112;
  kCardShift := 7;
  biased_begin_ := 1000;
  AgeCardVisitor := λ c, if decide (c = 112) then 111 else 0
|}.

(** Objects have two reference fields, at offsets 8 and 12. A reference is
    worth recording when it leaves the source region for the range from
    8192 on; live objects are those of the two ranges. *)
Definition example_collector : Collector := {|
  AddReference := λ obj ref, bool_decide (8192 ≤ ref);
  ref_offsets := λ obj, [8; 12];
  IsLiveObjectLocked := λ obj,
    bool_decide (4096 ≤ obj < 5120) || bool_decide (8192 ≤ obj < 8448)
|}.

(** The source region [[4096, 5120)]: cards 1032 to 1039. *)
Definition example_space : ContinuousSpace :=
  {| begin_ := 4096; end_ := 5120; limit_ := 6144 |}.

(** Two live objects: 4112 under card 1032 and 4736 under card 1037, whose
    card is Dirty. *)
Definition example_memory : Mem :=
  store (store (store (store (λ _, 0) 4120 8192) 4124 0) 4744 4112) 4748 8208.

Definition example_heap : Heap := {|
  card_table := store (λ _, 0) 1037 112;
  memory := example_memory;
  live_bitmap := {[4112; 4736]}
|}.

Definition example_refcache : ModUnionTableReferenceCache.t := {|
  ModUnionTableReferenceCache.space_ := example_space;
  ModUnionTableReferenceCache.cleared_cards_ := ∅;
  ModUnionTableReferenceCache.references_ := {[1037 := [4744; 4748]]}
|}.

Definition example_cardcache : ModUnionTableCardCache.t := {|
  ModUnionTableCardCache.space_ := example_space;
  ModUnionTableCardCache.cleared_cards_ := ∅
|}.

(** A visitor that moves the object at 8208 to 8300 and counts its calls. *)
Definition example_visitor (obj : Z) (arg : nat) : Z * nat :=
  (if decide (obj = 8208) then 8300 else obj, S arg).

(** The example table after [ClearCards], and after the
    [UpdateAndMarkReferences] that follows. *)
Definition example_cleared : Heap * ModUnionTableReferenceCache.t :=
  ModUnionTableReferenceCache.ClearCards (consts := example_consts)
    example_heap example_refcache.

Definition example_updated : ModUnionTableReferenceCache.Updated nat :=
  ModUnionTableReferenceCache.UpdateAndMarkReferences
    (consts := example_consts) (collector := example_collector)
    example_visitor 0%nat example_cleared.1 example_cleared.2.

(** A table whose first entry records only one of the two outgoing
    references of the object at 4112: the reference to 8208 stored at 4124
    is not covered by the slot 4120, which holds 8192. *)
Definition example_memory_escaped : Mem := store example_memory 4124 8208.

Definition example_heap_escaped : Heap := {|
  card_table := λ _, 0;
  memory := example_memory_escaped;
  live_bitmap := {[4112; 4736]}
|}.

Definition example_refcache_escaped : ModUnionTableReferenceCache.t := {|
  ModUnionTableReferenceCache.space_ := example_space;
  ModUnionTableReferenceCache.cleared_cards_ := ∅;
  ModUnionTableReferenceCache.references_ := {[1032 := [4120]]}
|}.

(** A space of 16 MiB whose allocator starts with one page and a soft
    limit of 1 MiB. *)
Definition example_rosalloc : RosAlloc.Simple := {|
  RosAlloc.base := 65536;
  RosAlloc.footprint := 4096;
  RosAlloc.footprint_limit := 1048576;
  RosAlloc.used := 0
|}.

Definition example_rosalloc_space : RosAllocSpace.t RosAlloc.Simple := {|
  RosAllocSpace.name_ := "alloc space";
  RosAllocSpace.space_ :=
    {| begin_ := 65536; end_ := 65536 + 4096; limit_ := 65536 + 16777216 |};
  RosAllocSpace.growth_limit_ := 16777216;
  RosAllocSpace.rosalloc_ := example_rosalloc;
  RosAllocSpace.valgrind_ := false
|}.

Definition example_Capacity (sp : RosAllocSpace.t RosAlloc.Simple) : Z :=
  Capacity (RosAllocSpace.space_ sp).

(** An operating system that refuses the mapping, and one that grants it
    while the allocator cannot be built. *)
Definition env_no_mem_map : RosAllocSpace.Env RosAlloc.Simple := {|
  RosAllocSpace.vlog_heap := false;
  RosAllocSpace.vlog_startup := true;
  RosAllocSpace.size_t_bits := 32;
  RosAllocSpace.CreateMemMap := λ _ _ _ _ _ _, None;
  RosAllocSpace.new_RosAlloc := λ _ _ _, None;
  RosAllocSpace.check_mprotect := λ _ _, ret tt;
  RosAllocSpace.running_on_valgrind := false
|}.

Definition env_no_rosalloc : RosAllocSpace.Env RosAlloc.Simple := {|
  RosAllocSpace.vlog_heap := false;
  RosAllocSpace.vlog_startup := false;
  RosAllocSpace.size_t_bits := 32;
  RosAllocSpace.CreateMemMap := λ _ _ initial_size growth_limit capacity requested_begin,
    Some {| RosAllocSpace.map_begin := requested_begin;
            RosAllocSpace.map_initial_size := initial_size;
            RosAllocSpace.map_growth_limit := growth_limit;
            RosAllocSpace.map_capacity := capacity |};
  RosAllocSpace.new_RosAlloc := λ _ _ _, None;
  RosAllocSpace.check_mprotect := λ _ _, ret tt;
  RosAllocSpace.running_on_valgrind := false
|}.

(** ** The taxonomy of spaces *)

(** [enum SpaceType] of space.h. *)
Inductive SpaceType :=
| kSpaceTypeImageSpace
| kSpaceTypeAllocSpace
| kSpaceTypeZygoteSpace
| kSpaceTypeBumpPointerSpace
| kSpaceTypeLargeObjectSpace.

#[global] Instance SpaceType_eq_dec : EqDecision SpaceType.
Proof. solve_decision. Defined.

(** The type tests of [Space], as functions of what the virtual [GetType()]
    returns. *)
Definition IsImageSpace (type : SpaceType) : bool :=
  bool_decide (type = kSpaceTypeImageSpace).

Definition IsMallocSpace (type : SpaceType) : bool :=
  bool_decide (type = kSpaceTypeAllocSpace) || bool_decide (type = kSpaceTypeZygoteSpace).

Definition IsZygoteSpace (type : SpaceType) : bool :=
  bool_decide (type = kSpaceTypeZygoteSpace).

Definition IsBumpPointerSpace (type : SpaceType) : bool :=
  bool_decide (type = kSpaceTypeBumpPointerSpace).

Definition IsLargeObjectSpace (type : SpaceType) : bool :=
  bool_decide (type = kSpaceTypeLargeObjectSpace).

(** [ContinuousSpace::SetEnd], [SetLimit] and [Size]. *)
Definition SetEnd (s : ContinuousSpace) (e : Z) : ContinuousSpace :=
  {| begin_ := begin_ s; end_ := e; limit_ := limit_ s |}.

Definition SetLimit (s : ContinuousSpace) (limit : Z) : ContinuousSpace :=
  {| begin_ := begin_ s; end_ := end_ s; limit_ := limit |}.

Definition Size (s : ContinuousSpace) : Z := End s - Begin s.

(** ** The slots and fields an update touches *)

(** All the slots of a references map, in the order the second loop of
    [ModUnionTableReferenceCache::UpdateAndMarkReferences] visits them. *)
Definition recorded_slots (references : gmap Z (list Z)) : list Z :=
  map_iter references ≫= snd.

Section touched.
Context {consts : Consts} {collector : Collector}.

(** The fields of the live objects under the cleared cards of a card cache,
    in the order [ModUnionTableCardCache::UpdateAndMarkReferences] visits
    them. *)
Definition scanned_fields (h : Heap) (tbl : ModUnionTableCardCache.t) : list Z :=
  set_iter (ModUnionTableCardCache.cleared_cards_ tbl) ≫= λ card_addr,
    VisitMarkedRange (live_bitmap h) (AddrFromCard card_addr)
                     (AddrFromCard card_addr + kCardSize) ≫= λ root,
      GetFieldObjectAddr root <$> ref_offsets root.

(** The cards [ModUnionClearCardVisitor] would collect in its vector when
    run by the transform of [ClearCards]. *)
Definition cleared_cards_vector (h : Heap) (sp : ContinuousSpace) (cleared : list Z) : list Z :=
  (ModifyCardsAtomic (card_table h) (Begin sp) (End sp)
     AgeCardVisitor ModUnionClearCardVisitor cleared).2.

End touched.

(** ** Freeing in a RosAlloc space *)

Module RosAllocSpaceFree.

(** What [Free] and [FreeList] ask of the allocator ([Free], [BulkFree],
    [UsableSize]) and of rosalloc_space-inl.h ([AllocationSizeNonvirtual]);
    none of them is among the sources. *)
Class Ops (R : Type) := {
  AllocationSizeNonvirtual : R → Z → Z;
  UsableSize : R → Z → Z;
  RosAllocFree : Z → R → R;
  BulkFree : list Z → R → R
}.

(** What the two functions do besides changing the allocator. *)
Inductive Effect :=
| Prefetch (ptr : Z)                 (* __builtin_prefetch(ptrs[i + look_ahead]) *)
| OutOfBoundsRead (i : Z)            (* a read of [ptrs[i]] past the array *)
| RegisterRecentFree (ptr : Z)
| LogNotInBounds (i : nat) (ptr : Z) (* LOG(ERROR) "FreeList[i] (ptr) not in bounds of heap" *)
| Memset (ptr value size : Z)
| CheckFailedNull                    (* CHECK(ptr != NULL) *)
| CheckFailedContains (ptr : Z)      (* CHECK(Contains(ptr)) *)
| CheckFailedBroken (n : nat).       (* CHECK_EQ(num_broken_ptrs, 0u) *)

Definition kPrefetchDuringRosAllocFreeList : bool := true.

Section ops.
Context {R : Type} {ops : Ops R}.

(** [kDebugSpaces] is [kIsDebugBuild]; [kRecentFreeCount] comes from
    malloc_space.h, which is not among the sources; [size_t] has
    [size_t_bits] bits. *)
Variable kDebugSpaces : bool.
Variable kRecentFreeCount : Z.
Variable size_t_bits : Z.


(** The prefetch of the first loop of [FreeList] at index [i]. *)
Definition prefetch_at (ptrs : list Z) (i : nat) : list Effect :=
  let look_ahead := 8 in
  let j := (Z.of_nat i + look_ahead) `mod` 2 ^ size_t_bits in
  if kPrefetchDuringRosAllocFreeList && bool_decide (j < Z.of_nat (length ptrs))
  then match ptrs !! Z.to_nat j with
       | Some ptr => [Prefetch ptr]
       | None => [OutOfBoundsRead j]
       end
  else [].

(** The first loop of [FreeList]: its prefetches and [bytes_freed]. *)
Definition sum_sizes (r : R) (ptrs : list Z) : Z :=
  foldl (λ bytes_freed ptr,
           (bytes_freed + AllocationSizeNonvirtual r ptr) `mod` 2 ^ size_t_bits)
        0 ptrs.

(** The loop of [FreeList] under [kDebugSpaces]. *)
Definition debug_check (sp : ContinuousSpace) (r : R) (i : nat) (ptr : Z) : list Effect :=
  if Contains sp ptr
  then [Memset ptr 239 (UsableSize r ptr)]
  else [LogNotInBounds i ptr].

Definition num_broken_ptrs (sp : ContinuousSpace) (ptrs : list Z) : nat :=
  length (filter (λ ptr, Contains sp ptr = false) ptrs).

(** [RosAllocSpace::FreeList], [num_ptrs] being the length of [ptrs]. *)
Definition FreeList (sp : ContinuousSpace) (ptrs : list Z) (r : R) : Run Effect Z * R :=
  let bytes_freed := sum_sizes r ptrs in
  let before :=
    mjoin (imap (λ i _, prefetch_at ptrs i) ptrs)
    ++ (if decide (0 < kRecentFreeCount) then RegisterRecentFree <$> ptrs else [])
    ++ (if kDebugSpaces then mjoin (imap (debug_check sp r) ptrs) else []) in
  if kDebugSpaces && negb (bool_decide (num_broken_ptrs sp ptrs = 0%nat))
  then ((before ++ [CheckFailedBroken (num_broken_ptrs sp ptrs)], Aborted), r)
  else ((before, Returned bytes_freed), BulkFree ptrs r).

End ops.

End RosAllocSpaceFree.

(** ** Walking a RosAlloc space *)

Module RosAllocSpaceWalk.

Inductive Lock := runtime_shutdown_lock_ | thread_list_lock_.

#[global] Instance Lock_eq_dec : EqDecision Lock.
Proof. solve_decision. Defined.








End RosAllocSpaceWalk.

(** ** More examples *)

(** One collection on a table whose map is still empty. *)
Definition example_refcache_fresh : ModUnionTableReferenceCache.t := {|
  ModUnionTableReferenceCache.space_ := example_space;
  ModUnionTableReferenceCache.cleared_cards_ := {[1032; 1037]};
  ModUnionTableReferenceCache.references_ := ∅
|}.

(** A visitor that moves nothing and counts its calls. *)
Definition example_visitor_still (obj : Z) (arg : nat) : Z * nat := (obj, S arg).

(** The move made by [example_visitor]. *)
Definition example_move (obj : Z) : Z := if decide (obj = 8208) then 8300 else obj.

(** An operating system that grants the mapping and an allocator that can be
    built. *)
Definition env_granted : RosAllocSpace.Env RosAlloc.Simple := {|
  RosAllocSpace.vlog_heap := false;
  RosAllocSpace.vlog_startup := false;
  RosAllocSpace.size_t_bits := 32;
  RosAllocSpace.CreateMemMap := λ _ _ initial_size growth_limit capacity requested_begin,
    Some {| RosAllocSpace.map_begin := requested_begin;
            RosAllocSpace.map_initial_size := initial_size;
            RosAllocSpace.map_growth_limit := growth_limit;
            RosAllocSpace.map_capacity := capacity |};
  RosAllocSpace.new_RosAlloc := λ begin morecore_start _,
    Some {| RosAlloc.base := begin; RosAlloc.footprint := morecore_start;
            RosAlloc.footprint_limit := morecore_start; RosAlloc.used := 0 |};
  RosAllocSpace.check_mprotect := λ _ _, ret tt;
  RosAllocSpace.running_on_valgrind := false
|}.

(** ** Facts about the containers *)

Lemma store_eq (m : Mem) a v : store m a v a = v.
Proof. unfold store. by rewrite decide_True. Qed.

Lemma store_ne (m : Mem) a v x : x ≠ a → store m a v x = m x.
Proof. intros. unfold store. by rewrite decide_False. Qed.

Lemma elem_of_set_iter (s : gset Z) x : x ∈ set_iter s ↔ x ∈ s.
Proof. unfold set_iter. by rewrite merge_sort_Permutation, elem_of_elements. Qed.

Lemma NoDup_set_iter (s : gset Z) : NoDup (set_iter s).
Proof. unfold set_iter. rewrite merge_sort_Permutation. apply NoDup_elements. Qed.

Lemma set_iter_empty : set_iter ∅ = [].
Proof. unfold set_iter. by rewrite elements_empty. Qed.

Lemma Sorted_le_NoDup_lt (l : list Z) :
  Sorted Z.le l → NoDup l → StronglySorted Z.lt l.
Proof.
  intros Hs%Sorted_StronglySorted; [|intros ???; lia].
  induction Hs as [|x l Hs IH Hx]; intros Hnd; [constructor|].
  apply NoDup_cons in Hnd as [Hx' Hnd]. constructor; [by apply IH|].
  rewrite Forall_forall in Hx |- *. intros y Hy.
  specialize (Hx y Hy). assert (x ≠ y) by (intros ->; done). lia.
Qed.

Lemma set_iter_ascending (s : gset Z) : StronglySorted Z.lt (set_iter s).
Proof.
  apply Sorted_le_NoDup_lt; [|apply NoDup_set_iter].
  unfold set_iter. apply (Sorted_merge_sort Z.le).
Qed.

Lemma elem_of_map_iter {A} (m : gmap Z A) k v : (k, v) ∈ map_iter m ↔ m !! k = Some v.
Proof. unfold map_iter. by rewrite merge_sort_Permutation, elem_of_map_to_list. Qed.

Lemma map_iter_empty {A} : map_iter (∅ : gmap Z A) = [].
Proof. unfold map_iter. by rewrite map_to_list_empty. Qed.

#[local] Set Warnings "-clear-no-such-hyp".

(** ** The atomic transform of the card table *)

Section card_table_facts.
Context {consts : Consts}.

Lemma modify_cards_snoc {S} v (m : Z → Z → Z → S → S) ct s l c :
  modify_cards v m ct s (l ++ [c]) = modify_card v m (modify_cards v m ct s l) c.
Proof. unfold modify_cards. by rewrite foldl_app. Qed.

(** The bytes written do not depend on who is told about them. *)
Lemma modify_cards_table {S} v (m : Z → Z → Z → S → S) ct s l :
  (modify_cards v m ct s l).1 = foldl (λ ct c, store ct c (v (ct c))) ct l.
Proof.
  induction l as [|c l IH] using rev_ind; [done|].
  rewrite modify_cards_snoc, foldl_app. simpl. by rewrite IH.
Qed.

Lemma modify_cards_untouched v ct l c :
  c ∉ l → foldl (λ ct c, store ct c (v (ct c))) ct l c = ct c.
Proof.
  induction l as [|x l IH] using rev_ind; [done|].
  rewrite not_elem_of_app, not_elem_of_cons. intros [Hl [Hx _]].
  rewrite foldl_app. simpl. rewrite store_ne by done. by apply IH.
Qed.

Lemma observations_snoc ct v l c :
  observations ct v (l ++ [c]) =
  observations ct v l ++
    [(c, foldl (λ ct c, store ct c (v (ct c))) ct l c,
         v (foldl (λ ct c, store ct c (v (ct c))) ct l c))].
Proof.
  unfold observations. rewrite modify_cards_snoc. unfold modify_card at 1.
  simpl. by rewrite modify_cards_table.
Qed.

(** The visitor of a transform is run on its reports, in order. *)
Lemma modify_cards_reports {S} v (m : Z → Z → Z → S → S) ct s l :
  (modify_cards v m ct s l).2 =
  foldl (λ s (o : Z * Z * Z), m o.1.1 o.1.2 o.2 s) s (observations ct v l).
Proof.
  induction l as [|c l IH] using rev_ind; [done|].
  rewrite modify_cards_snoc, observations_snoc, foldl_app. simpl.
  by rewrite IH, modify_cards_table.
Qed.

(** Each card of the range is reported once, with the byte it held. *)
Lemma elem_of_observations ct v l c e n :
  NoDup l → (c, e, n) ∈ observations ct v l ↔ c ∈ l ∧ e = ct c ∧ n = v e.
Proof.
  induction l as [|x l IH] using rev_ind.
  { intros _. unfold observations. simpl. rewrite !elem_of_nil. naive_solver. }
  rewrite NoDup_app. intros (Hl & Hx & _).
  rewrite observations_snoc, !elem_of_app, !list_elem_of_singleton, IH by done.
  assert (x ∉ l) by (intros ?; eapply Hx; [done|apply list_elem_of_singleton; done]).
  rewrite (modify_cards_untouched v ct l x) by done.
  split.
  - intros [(? & ? & ?)|?]; simplify_eq; auto.
  - intros ([?| ->] & -> & ->); auto.
Qed.

Lemma NoDup_scanned_cards b e : NoDup (scanned_cards b e).
Proof. unfold scanned_cards. case_decide; [apply NoDup_seqZ|constructor]. Qed.

Lemma elem_of_observed ct b e c x n :
  (c, x, n) ∈ observed ct b e ↔ c ∈ scanned_cards b e ∧ x = ct c ∧ n = AgeCardVisitor x.
Proof. apply elem_of_observations, NoDup_scanned_cards. Qed.

(** What [ModUnionClearCardSetVisitor] leaves in the set after a run of
    reports. *)
Lemma elem_of_cleared_after_reports (obs : list (Z * Z * Z)) (s : gset Z) c :
  c ∈ foldl (λ s (o : Z * Z * Z), ModUnionClearCardSetVisitor o.1.1 o.1.2 o.2 s) s obs
  ↔ c ∈ s ∨ ∃ n, (c, kCardDirty, n) ∈ obs.
Proof.
  revert s. induction obs as [|[[c' e'] n'] obs IH]; intros s; simpl.
  { setoid_rewrite elem_of_nil. naive_solver. }
  rewrite IH. unfold ModUnionClearCardSetVisitor. setoid_rewrite elem_of_cons.
  case_decide; [rewrite elem_of_union, elem_of_singleton|]; naive_solver.
Qed.

Lemma elem_of_ModifyCardsAtomic_cleared ct b e (s : gset Z) c :
  c ∈ (ModifyCardsAtomic ct b e AgeCardVisitor ModUnionClearCardSetVisitor s).2
  ↔ c ∈ s ∨ ∃ n, (c, kCardDirty, n) ∈ observed ct b e.
Proof.
  unfold ModifyCardsAtomic. rewrite modify_cards_reports.
  apply elem_of_cleared_after_reports.
Qed.

(** C1. After [ClearCards], for the reference-cache and for the card-cache
    table alike, a card is in [cleared_cards_] if and only if it was there
    before the call or the transform over [[Begin, End)] of the source region
    observed its byte as [kCardDirty]. A card is observed as Dirty exactly
    when it is one of the cards of the range and held [kCardDirty]; cards
    observed in another state are not added. *)
Theorem ClearCards_cleared_cards (h : Heap) (rc : ModUnionTableReferenceCache.t)
    (cc : ModUnionTableCardCache.t) (card : Z) :
  (card ∈ ModUnionTableReferenceCache.cleared_cards_
            (ModUnionTableReferenceCache.ClearCards h rc).2
   ↔ card ∈ ModUnionTableReferenceCache.cleared_cards_ rc
     ∨ observed_dirty h (ModUnionTableReferenceCache.space_ rc) card)
  ∧ (card ∈ ModUnionTableCardCache.cleared_cards_
              (ModUnionTableCardCache.ClearCards h cc).2
     ↔ card ∈ ModUnionTableCardCache.cleared_cards_ cc
       ∨ observed_dirty h (ModUnionTableCardCache.space_ cc) card)
  ∧ (∀ sp, observed_dirty h sp card
           ↔ card ∈ scanned_cards (Begin sp) (End sp)
             ∧ card_table h card = kCardDirty).
Proof.
  split_and!.
  - apply elem_of_ModifyCardsAtomic_cleared.
  - apply elem_of_ModifyCardsAtomic_cleared.
  - intros sp. unfold observed_dirty. setoid_rewrite elem_of_observed.
    naive_solver.
Qed.

End card_table_facts.

(** ** Recomputing the references of a card *)

Lemma foldl_invariant {S X} (P : S → Prop) (f : S → X → S) :
  (∀ s x, P s → P (f s x)) → ∀ l s, P s → P (foldl f s l).
Proof. intros Hf l. induction l as [|x l IH]; simpl; auto. Qed.

Section recompute_facts.
Context {consts : Consts} {collector : Collector}.

Lemma ModUnionReferenceVisitor_appends mem refs obj :
  ModUnionReferenceVisitor mem refs obj = refs ++ qualifying_slots mem obj.
Proof.
  unfold ModUnionReferenceVisitor, VisitObjectReferences, qualifying_slots.
  revert refs. induction (ref_offsets obj) as [|offset l IH]; intros refs; simpl.
  { by rewrite app_nil_r. }
  rewrite IH. unfold AddToReferenceArrayVisitor. rewrite filter_cons.
  destruct (decide (mem (GetFieldObjectAddr obj offset) ≠ nullptr
                    ∧ AddReference obj (mem (GetFieldObjectAddr obj offset)) = true))
    as [[Hn Ha]|Hno].
  - rewrite bool_decide_eq_true_2, Ha by done. simpl. by rewrite <- app_assoc.
  - destruct (decide (mem (GetFieldObjectAddr obj offset) = nullptr)) as [Hz|Hz].
    + by rewrite bool_decide_eq_false_2 by (intros ?; done).
    + rewrite bool_decide_eq_true_2 by done. simpl.
      destruct (AddReference obj (mem (GetFieldObjectAddr obj offset))) eqn:Ha; [|done].
      destruct Hno. done.
Qed.

Lemma foldl_ModUnionReferenceVisitor mem refs objs :
  foldl (ModUnionReferenceVisitor mem) refs objs = refs ++ (objs ≫= qualifying_slots mem).
Proof.
  revert refs. induction objs as [|obj objs IH]; intros refs; simpl.
  { by rewrite app_nil_r. }
  by rewrite IH, ModUnionReferenceVisitor_appends, <- app_assoc.
Qed.

(** The vector filled by the code is the one the spec describes. *)
Lemma cards_references_qualifying h card :
  cards_references h card = qualifying_slots_of_card h card.
Proof. unfold cards_references. by rewrite foldl_ModUnionReferenceVisitor. Qed.

Lemma elem_of_qualifying_slots mem obj slot :
  slot ∈ qualifying_slots mem obj ↔
  ∃ offset, offset ∈ ref_offsets obj ∧ slot = GetFieldObjectAddr obj offset
            ∧ mem slot ≠ nullptr ∧ AddReference obj (mem slot) = true.
Proof.
  unfold qualifying_slots. rewrite list_elem_of_fmap.
  setoid_rewrite list_elem_of_filter. naive_solver.
Qed.

Lemma entry_after_idemp old fresh :
  entry_after (entry_after old fresh) fresh = entry_after old fresh.
Proof. unfold entry_after. destruct old; [done|]. by case_bool_decide. Qed.

Lemma update_card_lookup h (refs : gmap Z (list Z)) card c :
  update_card h refs card !! c =
  if decide (c = card) then entry_after (refs !! card) (cards_references h card)
  else refs !! c.
Proof.
  unfold update_card, entry_after.
  destruct (refs !! card) as [old|] eqn:Hold.
  - case_decide as Hc; [subst; by rewrite lookup_insert_eq|by rewrite lookup_insert_ne].
  - case_bool_decide.
    + case_decide; by subst.
    + case_decide as Hc; [subst; by rewrite lookup_insert_eq|by rewrite lookup_insert_ne].
Qed.

Lemma foldl_update_card_lookup h (refs : gmap Z (list Z)) l c :
  foldl (update_card h) refs l !! c =
  if decide (c ∈ l) then entry_after (refs !! c) (cards_references h c)
  else refs !! c.
Proof.
  revert refs. induction l as [|x l IH]; intros refs; cbn [foldl].
  { rewrite decide_False; [done|apply not_elem_of_nil]. }
  rewrite IH, update_card_lookup.
  destruct (decide (c = x)) as [->|Hne].
  - rewrite (decide_True (P := x ∈ x :: l)) by apply list_elem_of_here.
    case_decide; [apply entry_after_idemp|done].
  - destruct (decide (c ∈ l)) as [Hin|Hnin].
    + by rewrite decide_True by (by apply list_elem_of_further).
    + rewrite decide_False; [done|]. rewrite elem_of_cons. naive_solver.
Qed.

Lemma recompute_lookup h tbl c :
  ModUnionTableReferenceCache.recompute h tbl !! c =
  if decide (c ∈ ModUnionTableReferenceCache.cleared_cards_ tbl)
  then entry_after (ModUnionTableReferenceCache.references_ tbl !! c)
                   (cards_references h c)
  else ModUnionTableReferenceCache.references_ tbl !! c.
Proof.
  unfold ModUnionTableReferenceCache.recompute. rewrite foldl_update_card_lookup.
  destruct (decide (c ∈ ModUnionTableReferenceCache.cleared_cards_ tbl)) as [Hc|Hc].
  - by rewrite decide_True by (by apply elem_of_set_iter).
  - by rewrite decide_False by (by rewrite elem_of_set_iter).
Qed.

Lemma recompute_no_cleared_cards h tbl :
  ModUnionTableReferenceCache.cleared_cards_ tbl = ∅ →
  ModUnionTableReferenceCache.recompute h tbl = ModUnionTableReferenceCache.references_ tbl.
Proof.
  intros Hc. unfold ModUnionTableReferenceCache.recompute.
  by rewrite Hc, set_iter_empty.
Qed.

End recompute_facts.

(** ** Updating the reference cache *)

Section update_facts.
Context {consts : Consts} {collector : Collector} {A : Type}.
Variable visitor : Z → A → Z * A.

Lemma call_visitor_calls slot obj (s : MarkState A) :
  ms_calls (call_visitor visitor slot obj s) = ms_calls s ++ [obj].
Proof. done. Qed.

Lemma mark_slot_calls_not_null (s : MarkState A) obj_ptr :
  Forall (λ obj, obj ≠ nullptr) (ms_calls s) →
  Forall (λ obj, obj ≠ nullptr) (ms_calls (mark_slot visitor s obj_ptr)).
Proof.
  intros Hs. unfold mark_slot. case_decide; [|done].
  rewrite call_visitor_calls. apply Forall_app. auto.
Qed.

Lemma ModUnionScanImageRootVisitor_calls_not_null (s : MarkState A) root :
  Forall (λ obj, obj ≠ nullptr) (ms_calls s) →
  Forall (λ obj, obj ≠ nullptr) (ms_calls (ModUnionScanImageRootVisitor visitor s root)).
Proof.
  unfold ModUnionScanImageRootVisitor, VisitObjectReferences.
  apply (foldl_invariant (λ s, Forall (λ obj, obj ≠ nullptr) (ms_calls s))).
  clear s. intros s offset Hs. unfold ModUnionUpdateObjectReferencesVisitor.
  case_decide; [|done]. rewrite call_visitor_calls. apply Forall_app. auto.
Qed.

(** C2. For every card in [cleared_cards_] when [UpdateAndMarkReferences]
    is called, the slots recorded for the card afterwards are exactly the
    freshly recomputed qualifying slots of the card. An entry that existed
    is overwritten with them, not extended; a card without an entry gets one
    holding them, unless there are none, in which case the card stays without
    an entry (which records the same empty sequence). *)
Theorem UpdateAndMarkReferences_replaces_entry (arg : A) (h : Heap)
    (tbl : ModUnionTableReferenceCache.t) (card : Z) :
  card ∈ ModUnionTableReferenceCache.cleared_cards_ tbl →
  default [] (ModUnionTableReferenceCache.references_
                (ModUnionTableReferenceCache.table_after
                   (ModUnionTableReferenceCache.UpdateAndMarkReferences visitor arg h tbl))
              !! card)
  = qualifying_slots_of_card h card
  ∧ (is_Some (ModUnionTableReferenceCache.references_ tbl !! card)
     ∨ qualifying_slots_of_card h card ≠ [] →
     ModUnionTableReferenceCache.references_
       (ModUnionTableReferenceCache.table_after
          (ModUnionTableReferenceCache.UpdateAndMarkReferences visitor arg h tbl))
     !! card = Some (qualifying_slots_of_card h card))
  ∧ (ModUnionTableReferenceCache.references_ tbl !! card = None →
     qualifying_slots_of_card h card = [] →
     ModUnionTableReferenceCache.references_
       (ModUnionTableReferenceCache.table_after
          (ModUnionTableReferenceCache.UpdateAndMarkReferences visitor arg h tbl))
     !! card = None).
Proof.
  intros Hc. cbn [ModUnionTableReferenceCache.UpdateAndMarkReferences
                  ModUnionTableReferenceCache.table_after
                  ModUnionTableReferenceCache.references_].
  rewrite recompute_lookup, decide_True by done.
  rewrite cards_references_qualifying. unfold entry_after.
  destruct (ModUnionTableReferenceCache.references_ tbl !! card) as [old|].
  - split_and!; [done|done|]. intros; discriminate.
  - case_bool_decide as Hq.
    + rewrite Hq. split_and!; [done| |done].
      intros [[? ?]|?]; [discriminate|done].
    + split_and!; [done|done|]. intros _ ?. done.
Qed.

(** C3. After [UpdateAndMarkReferences] returns, [cleared_cards_] is empty;
    so no card, and none of those a preceding [ClearCards] put there, is in
    it once the cycle is over. *)
Theorem UpdateAndMarkReferences_empties_cleared_cards (arg : A) (h : Heap)
    (tbl : ModUnionTableReferenceCache.t) :
  ModUnionTableReferenceCache.cleared_cards_
    (ModUnionTableReferenceCache.table_after
       (ModUnionTableReferenceCache.UpdateAndMarkReferences visitor arg h tbl)) = ∅
  ∧ ∀ card,
      card ∉ ModUnionTableReferenceCache.cleared_cards_
               (ModUnionTableReferenceCache.table_after
                  (ModUnionTableReferenceCache.UpdateAndMarkReferences visitor arg
                     (ModUnionTableReferenceCache.ClearCards h tbl).1
                     (ModUnionTableReferenceCache.ClearCards h tbl).2)).
Proof. split; [done|]. intros card. apply not_elem_of_empty. Qed.

(** C4. A second [UpdateAndMarkReferences], with no [ClearCards] in between,
    leaves the references map as the first call left it, whatever visitor it
    is given and whatever the heap holds by then. *)
Theorem UpdateAndMarkReferences_twice (visitor2 : Z → A → Z * A) (arg arg2 : A)
    (h h2 : Heap) (tbl : ModUnionTableReferenceCache.t) :
  ModUnionTableReferenceCache.references_
    (ModUnionTableReferenceCache.table_after
       (ModUnionTableReferenceCache.UpdateAndMarkReferences visitor2 arg2 h2
          (ModUnionTableReferenceCache.table_after
             (ModUnionTableReferenceCache.UpdateAndMarkReferences visitor arg h tbl))))
  = ModUnionTableReferenceCache.references_
      (ModUnionTableReferenceCache.table_after
         (ModUnionTableReferenceCache.UpdateAndMarkReferences visitor arg h tbl)).
Proof.
  cbn [ModUnionTableReferenceCache.UpdateAndMarkReferences
       ModUnionTableReferenceCache.table_after
       ModUnionTableReferenceCache.references_].
  by rewrite recompute_no_cleared_cards.
Qed.

(** C10. During [UpdateAndMarkReferences] no slot holding null is recorded
    and the visitor is never called on null. In the reference cache a slot
    recorded for a cleared card is a field of some object, holds a reference
    that is not null and that [AddReference] accepts; the objects the
    visitor is called on are not null, in the reference cache and in the card
    cache alike; a recorded slot whose value is null is passed over, and so is
    a null field in the card cache. *)
Theorem UpdateAndMarkReferences_never_null (arg : A) (h : Heap)
    (rc : ModUnionTableReferenceCache.t) (cc : ModUnionTableCardCache.t) :
  (∀ card slots slot,
     card ∈ ModUnionTableReferenceCache.cleared_cards_ rc →
     ModUnionTableReferenceCache.references_
       (ModUnionTableReferenceCache.table_after
          (ModUnionTableReferenceCache.UpdateAndMarkReferences visitor arg h rc))
     !! card = Some slots →
     slot ∈ slots →
     memory h slot ≠ nullptr
     ∧ ∃ obj offset, offset ∈ ref_offsets obj ∧ slot = GetFieldObjectAddr obj offset
                     ∧ AddReference obj (memory h slot) = true)
  ∧ Forall (λ obj, obj ≠ nullptr)
      (ModUnionTableReferenceCache.visitor_calls
         (ModUnionTableReferenceCache.UpdateAndMarkReferences visitor arg h rc))
  ∧ Forall (λ obj, obj ≠ nullptr)
      (ms_calls (ModUnionTableCardCache.UpdateAndMarkReferences visitor arg h cc))
  ∧ (∀ (s : MarkState A) obj_ptr,
       ms_memory s obj_ptr = nullptr → mark_slot visitor s obj_ptr = s)
  ∧ (∀ (s : MarkState A) obj offset,
       ModUnionUpdateObjectReferencesVisitor visitor obj nullptr offset s = s).
Proof.
  split_and!.
  - intros card slots slot Hc Hslots Hslot.
    cbn [ModUnionTableReferenceCache.UpdateAndMarkReferences
         ModUnionTableReferenceCache.table_after
         ModUnionTableReferenceCache.references_] in Hslots.
    rewrite recompute_lookup, decide_True in Hslots by done.
    assert (slots = qualifying_slots_of_card h card) as ->.
    { rewrite cards_references_qualifying in Hslots. unfold entry_after in Hslots.
      destruct (ModUnionTableReferenceCache.references_ rc !! card);
        [|case_bool_decide]; congruence. }
    unfold qualifying_slots_of_card in Hslot.
    apply list_elem_of_bind in Hslot as (obj & Hslot & _).
    apply elem_of_qualifying_slots in Hslot as (offset & ? & ? & ? & ?).
    eauto 10.
  - cbn [ModUnionTableReferenceCache.UpdateAndMarkReferences
         ModUnionTableReferenceCache.visitor_calls].
    apply (foldl_invariant (λ s, Forall (λ obj, obj ≠ nullptr) (ms_calls s)));
      [|constructor].
    intros s ref Hs.
    apply (foldl_invariant (λ s, Forall (λ obj, obj ≠ nullptr) (ms_calls s)));
      [|done].
    intros; by apply mark_slot_calls_not_null.
  - unfold ModUnionTableCardCache.UpdateAndMarkReferences.
    apply (foldl_invariant (λ s, Forall (λ obj, obj ≠ nullptr) (ms_calls s)));
      [|constructor].
    intros s card Hs.
    apply (foldl_invariant (λ s, Forall (λ obj, obj ≠ nullptr) (ms_calls s)));
      [|done].
    intros; by apply ModUnionScanImageRootVisitor_calls_not_null.
  - intros s obj_ptr Hz. unfold mark_slot. by rewrite decide_False by (by intros ?).
  - intros s obj offset. unfold ModUnionUpdateObjectReferencesVisitor.
    by rewrite decide_False by (by intros ?).
Qed.

End update_facts.

(** ** Runs *)

Section run_facts.
Context {E : Type}.

Lemma bind_ret_tt {B} (k : Run E B) : (ret tt ;; k) = k.
Proof. unfold bind, ret. simpl. by destruct k. Qed.

Lemma bind_aborted {X B} log (f : X → Run E B) : bind (log, Aborted) f = (log, Aborted).
Proof. done. Qed.

Lemma bind_is_ret_tt (m k : Run E unit) :
  (m ;; k) = ret tt ↔ m = ret tt ∧ k = ret tt.
Proof.
  split; [|intros [-> ->]; apply bind_ret_tt].
  destruct m as [log [[]|]], k as [log' o']; unfold bind, ret; simpl; [|done].
  intros [= [-> ->]%app_eq_nil ->]. done.
Qed.

Lemma for_each_is_ret_tt {X} (body : X → Run E unit) l :
  for_each body l = ret tt ↔ ∀ x, x ∈ l → body x = ret tt.
Proof.
  induction l as [|x l IH]; simpl.
  { split; [|done]. intros _ x []%elem_of_nil. }
  rewrite bind_is_ret_tt, IH. setoid_rewrite elem_of_cons. naive_solver.
Qed.

Lemma for_each_quiet_or {X} P (body : X → Run E unit) l :
  (∀ x, x ∈ l → quiet_or P (body x)) → quiet_or P (for_each body l).
Proof.
  induction l as [|x l IH]; intros Hb; simpl; [by left|].
  destruct (Hb x) as [->|(log & -> & ?)]; [apply list_elem_of_here| |].
  - rewrite bind_ret_tt. apply IH. intros y Hy. apply Hb. by apply list_elem_of_further.
  - right. eauto.
Qed.

Lemma quiet_or_not_ret P (m : Run E unit) :
  quiet_or P m → m ≠ ret tt → ∃ log, m = (log, Aborted) ∧ P log.
Proof. intros [->|?]; [done|auto]. Qed.

End run_facts.

(** ** Verifying the reference cache *)

Section verify_facts.
Context {consts : Consts} {collector : Collector}.
Import ModUnionTableReferenceCache.

Lemma CheckReferenceVisitor_cases (references : gset Z) obj ref :
  (ref ≠ nullptr ∧ AddReference obj ref = true ∧ (ref ∉ references)
   ∧ CheckReferenceVisitor references obj ref = (fatal_log obj ref, Aborted))
  ∨ (¬ (ref ≠ nullptr ∧ AddReference obj ref = true ∧ ref ∉ references)
     ∧ CheckReferenceVisitor references obj ref = ret tt).
Proof.
  unfold CheckReferenceVisitor.
  destruct (decide (ref ≠ nullptr)) as [Hn|Hn];
    [rewrite bool_decide_eq_true_2 by done|rewrite bool_decide_eq_false_2 by done];
    simpl; [|right; naive_solver].
  destruct (AddReference obj ref); simpl; [|right; naive_solver].
  destruct (decide (ref ∉ references)) as [Hr|Hr];
    [rewrite bool_decide_eq_true_2 by done|rewrite bool_decide_eq_false_2 by done];
    [left|right]; naive_solver.
Qed.

Lemma check_live_cases h slot :
  (IsLiveObjectLocked (memory h slot) = true ∧ check_live h slot = ret tt)
  ∨ (IsLiveObjectLocked (memory h slot) = false
     ∧ check_live h slot = ([CheckFailed (memory h slot)], Aborted)).
Proof. unfold check_live. destruct (IsLiveObjectLocked _); [left|right]; done. Qed.

(** The first loop of [Verify] passes exactly when every slot is live. *)
Lemma check_live_loop_ret h tbl :
  for_each (λ ref_pair : Z * list Z, for_each (check_live h) ref_pair.2)
           (map_iter (references_ tbl)) = ret tt
  ↔ all_recorded_live h tbl.
Proof.
  rewrite for_each_is_ret_tt. unfold all_recorded_live. split.
  - intros Hall card slots slot Hcard Hslot.
    apply elem_of_map_iter in Hcard. specialize (Hall _ Hcard).
    rewrite for_each_is_ret_tt in Hall. specialize (Hall _ Hslot).
    destruct (check_live_cases h slot) as [[? _]|[_ Hf]]; [done|].
    rewrite Hf in Hall. discriminate.
  - intros Hall [card slots] Hcard%elem_of_map_iter. simpl.
    apply for_each_is_ret_tt. intros slot Hslot.
    destruct (check_live_cases h slot) as [[_ ?]|[Hd _]]; [done|].
    rewrite (Hall _ _ _ Hcard Hslot) in Hd. discriminate.
Qed.

Lemma check_live_loop_quiet_or h tbl :
  quiet_or (λ log, ∃ slot, IsLiveObjectLocked (memory h slot) = false
                           ∧ log = [CheckFailed (memory h slot)])
    (for_each (λ ref_pair : Z * list Z, for_each (check_live h) ref_pair.2)
              (map_iter (references_ tbl))).
Proof.
  apply for_each_quiet_or. intros ref_pair _.
  apply for_each_quiet_or. intros slot _.
  destruct (check_live_cases h slot) as [[_ ->]|[? ->]]; [by left|right; eauto].
Qed.

(** The second loop of [Verify] passes exactly when no reference escaped. *)
Lemma check_card_loop_ret h tbl :
  for_each (check_card h) (map_iter (references_ tbl)) = ret tt
  ↔ ∀ obj ref, ¬ escaped h tbl obj ref.
Proof.
  rewrite for_each_is_ret_tt. split.
  - intros Hall obj ref (card & slots & offset & Hcard & Hclean & Hobj & Hoff & -> & Hn & Ha & Hr).
    apply elem_of_map_iter in Hcard. specialize (Hall _ Hcard).
    unfold check_card in Hall. simpl in Hall. rewrite decide_True in Hall by done.
    rewrite for_each_is_ret_tt in Hall. specialize (Hall _ Hobj).
    unfold ModUnionCheckReferences in Hall.
    rewrite for_each_is_ret_tt in Hall. specialize (Hall _ Hoff).
    destruct (CheckReferenceVisitor_cases (list_to_set (memory h <$> slots)) obj
                (memory h (GetFieldObjectAddr obj offset)))
      as [(_ & _ & _ & Hf)|[Hno _]].
    + rewrite Hf in Hall. discriminate.
    + apply Hno. by rewrite elem_of_list_to_set.
  - intros Hno [card slots] Hcard%elem_of_map_iter. unfold check_card. simpl.
    case_decide as Hclean; [|done].
    apply for_each_is_ret_tt. intros obj Hobj.
    apply for_each_is_ret_tt. intros offset Hoff.
    destruct (CheckReferenceVisitor_cases (list_to_set (memory h <$> slots)) obj
                (memory h (GetFieldObjectAddr obj offset)))
      as [(Hn & Ha & Hr & _)|[_ ?]]; [|done].
    destruct (Hno obj (memory h (GetFieldObjectAddr obj offset))).
    exists card, slots, offset. rewrite elem_of_list_to_set in Hr. done.
Qed.

Lemma check_card_loop_quiet_or h tbl :
  quiet_or (λ log, ∃ obj ref, escaped h tbl obj ref ∧ log = fatal_log obj ref)
    (for_each (check_card h) (map_iter (references_ tbl))).
Proof.
  apply for_each_quiet_or. intros [card slots] Hcard%elem_of_map_iter.
  unfold check_card. simpl. case_decide as Hclean; [|by left].
  apply for_each_quiet_or. intros obj Hobj.
  apply for_each_quiet_or. intros offset Hoff.
  destruct (CheckReferenceVisitor_cases (list_to_set (memory h <$> slots)) obj
              (memory h (GetFieldObjectAddr obj offset)))
    as [(Hn & Ha & Hr & ->)|[_ ->]]; [|by left].
  right. eexists; split; [done|]. eexists _, _; split; [|done].
  exists card, slots, offset. rewrite elem_of_list_to_set in Hr. done.
Qed.

(** C5. [Verify] checks that every slot recorded in the references map
    holds a live object, and for every card of the map whose byte is Clean it
    derives anew the qualifying references of the live objects under the
    card. It returns (silently) exactly when every recorded slot is live and
    no such reference is missing from the set recorded for its card. When the
    slots are live but a reference is missing, it logs the object and the
    reference, the two spaces, dumps the spaces and aborts with a fatal
    error; when a slot holds an object that is not live, the [CHECK] aborts. *)
Theorem Verify_aborts_on_escaped_reference (h : Heap) (tbl : t) :
  (Verify h tbl = ret tt
   ↔ all_recorded_live h tbl ∧ ∀ obj ref, ¬ escaped h tbl obj ref)
  ∧ (all_recorded_live h tbl →
     (∃ obj ref, escaped h tbl obj ref) →
     ∃ obj ref, escaped h tbl obj ref
                ∧ Verify h tbl = (fatal_log obj ref, Aborted))
  ∧ (¬ all_recorded_live h tbl →
     ∃ slot, IsLiveObjectLocked (memory h slot) = false
             ∧ Verify h tbl = ([CheckFailed (memory h slot)], Aborted))
  ∧ ((∃ obj ref, escaped h tbl obj ref) → (Verify h tbl).2 = Aborted).
Proof.
  unfold Verify. split_and!.
  - by rewrite bind_is_ret_tt, check_live_loop_ret, check_card_loop_ret.
  - intros Hlive%check_live_loop_ret (obj & ref & Hesc).
    rewrite Hlive, bind_ret_tt.
    destruct (quiet_or_not_ret _ _ (check_card_loop_quiet_or h tbl))
      as (log & -> & obj' & ref' & ? & ->); [|eauto].
    rewrite check_card_loop_ret. intros Hno. by apply (Hno obj ref).
  - intros Hdead.
    destruct (quiet_or_not_ret _ _ (check_live_loop_quiet_or h tbl))
      as (log & -> & slot & ? & ->); [|eauto].
    by rewrite check_live_loop_ret.
  - intros (obj & ref & Hesc).
    destruct (check_live_loop_quiet_or h tbl) as [->|(log & -> & _)]; [|done].
    rewrite bind_ret_tt.
    destruct (quiet_or_not_ret _ _ (check_card_loop_quiet_or h tbl))
      as (log & -> & _); [|done].
    rewrite check_card_loop_ret. intros Hno. by apply (Hno obj ref).
Qed.

End verify_facts.

(** ** The set of cleared cards of the card cache *)

Section card_cache_facts.
Context {consts : Consts}.
Import ModUnionTableCardCache.

Lemma elem_of_discovered h tbl card :
  card ∈ discovered h tbl ↔ observed_dirty h (space_ tbl) card.
Proof.
  unfold discovered, observed_dirty. rewrite list_elem_of_fmap.
  setoid_rewrite list_elem_of_filter. split.
  - intros ([[c e] n] & -> & He & Ho). simpl in *. subst. eauto.
  - intros (n & Ho). exists (card, kCardDirty, n). done.
Qed.

Lemma clear_cards_history_cleared rounds h tbl found :
  (∀ card, card ∈ cleared_cards_ tbl ↔ card ∈ found) →
  ∀ card, card ∈ cleared_cards_ (clear_cards_history rounds h tbl found).1.2
          ↔ card ∈ (clear_cards_history rounds h tbl found).2.
Proof.
  revert h tbl found. induction rounds as [|writes rounds IH]; intros h tbl found Hinv;
    [done|].
  cbn [clear_cards_history]. apply IH. intros card.
  rewrite elem_of_app, elem_of_discovered, <- Hinv.
  apply elem_of_ModifyCardsAtomic_cleared.
Qed.

(** C8, as the code has it. The card cache keeps [cleared_cards_] in a
    [CardSet]: after any sequence of [ClearCards] calls on a table that
    starts empty, iterating it yields exactly the cards that were discovered
    Dirty, each once and in ascending address order. *)
Theorem ClearCards_history_iterates_ascending (rounds : list (list Z)) (h : Heap)
    (sp : ContinuousSpace) :
  StronglySorted Z.lt
    (set_iter (cleared_cards_
       (clear_cards_history rounds h {| space_ := sp; cleared_cards_ := ∅ |} []).1.2))
  ∧ ∀ card,
      card ∈ set_iter (cleared_cards_
        (clear_cards_history rounds h {| space_ := sp; cleared_cards_ := ∅ |} []).1.2)
      ↔ card ∈ (clear_cards_history rounds h {| space_ := sp; cleared_cards_ := ∅ |} []).2.
Proof.
  split; [apply set_iter_ascending|].
  intros card. rewrite elem_of_set_iter.
  apply clear_cards_history_cleared. intros c. simpl.
  rewrite elem_of_nil, elem_of_empty. done.
Qed.

End card_cache_facts.

(** C8, as the spec has it, fails: card 1037 is found Dirty by a first
    [ClearCards], card 1032 by a second one, and the iteration yields 1032
    before 1037. *)
Lemma ClearCards_iteration_not_discovery_order :
  (ModUnionTableCardCache.clear_cards_history (consts := example_consts)
     [[4800]; [4200]] example_heap example_cardcache []).2 = [1037; 1032]
  ∧ set_iter (ModUnionTableCardCache.cleared_cards_
       (ModUnionTableCardCache.clear_cards_history (consts := example_consts)
          [[4800]; [4200]] example_heap example_cardcache []).1.2) = [1032; 1037]
  ∧ set_iter (ModUnionTableCardCache.cleared_cards_
       (ModUnionTableCardCache.clear_cards_history (consts := example_consts)
          [[4800]; [4200]] example_heap example_cardcache []).1.2)
    ≠ (ModUnionTableCardCache.clear_cards_history (consts := example_consts)
         [[4800]; [4200]] example_heap example_cardcache []).2.
Proof. vm_compute. split_and!; [done|done|discriminate]. Qed.

(** ** The footprint limit of a RosAlloc space *)

#[global] Instance simple_laws : RosAlloc.Laws RosAlloc.Simple.
Proof. split; reflexivity. Qed.

Section footprint_facts.
Context {R : Type} {ops : RosAlloc.Ops R}.
Import RosAllocSpace.

Lemma GetFootprintLimit_with_rosalloc (sp : t R) r :
  GetFootprintLimit (with_rosalloc sp r) = RosAlloc.FootprintLimit r.
Proof. done. Qed.

Lemma GetFootprint_with_rosalloc (sp : t R) r :
  GetFootprint (with_rosalloc sp r) = RosAlloc.Footprint r.
Proof. done. Qed.

(** C6. [AllocWithGrowth] raises the footprint limit to the capacity, tries
    the allocation under that limit, then sets the limit to the footprint the
    allocator reports right after the allocation. A [GetFootprintLimit] that
    follows returns that footprint: it is the realized footprint, so not
    below it, and it is below the capacity whenever the footprint is. *)
Theorem AllocWithGrowth_footprint_limit (laws : RosAlloc.Laws R)
    (kDebugSpaces : bool) (Capacity : t R → Z) (num_bytes : Z) (sp : t R) :
  RosAlloc.FootprintLimit (RosAlloc.SetFootprintLimit (Capacity sp) (rosalloc_ sp))
  = Capacity sp
  ∧ GetFootprintLimit (AllocWithGrowth kDebugSpaces Capacity num_bytes sp).1
    = RosAlloc.Footprint
        (AllocWithoutGrowthLocked num_bytes
           (RosAlloc.SetFootprintLimit (Capacity sp) (rosalloc_ sp))).2
  ∧ GetFootprintLimit (AllocWithGrowth kDebugSpaces Capacity num_bytes sp).1
    = GetFootprint (AllocWithGrowth kDebugSpaces Capacity num_bytes sp).1
  ∧ (GetFootprint (AllocWithGrowth kDebugSpaces Capacity num_bytes sp).1 < Capacity sp →
     GetFootprintLimit (AllocWithGrowth kDebugSpaces Capacity num_bytes sp).1 < Capacity sp).
Proof.
  unfold AllocWithGrowth. cbn [fst].
  rewrite GetFootprintLimit_with_rosalloc, GetFootprint_with_rosalloc.
  rewrite !RosAlloc.FootprintLimit_Set, RosAlloc.Footprint_Set. auto.
Qed.

(** C7. [SetFootprintLimit x] hands the allocator the larger of [x] and its
    current footprint, so the limit becomes [max x footprint]: a request
    below the footprint is raised to the footprint, and the limit is never
    set below it. *)
Theorem SetFootprintLimit_clamps (laws : RosAlloc.Laws R) (x : Z) (sp : t R) :
  rosalloc_ (SetFootprintLimit x sp)
  = RosAlloc.SetFootprintLimit (Z.max x (GetFootprint sp)) (rosalloc_ sp)
  ∧ GetFootprintLimit (SetFootprintLimit x sp) = Z.max x (GetFootprint sp)
  ∧ GetFootprint (SetFootprintLimit x sp) ≤ GetFootprintLimit (SetFootprintLimit x sp)
  ∧ (x < GetFootprint sp →
     GetFootprintLimit (SetFootprintLimit x sp) = GetFootprint sp).
Proof.
  unfold SetFootprintLimit.
  rewrite GetFootprintLimit_with_rosalloc, GetFootprint_with_rosalloc.
  rewrite RosAlloc.FootprintLimit_Set, RosAlloc.Footprint_Set.
  unfold GetFootprint. cbn [rosalloc_ with_rosalloc].
  case_decide.
  - rewrite Z.max_r by lia. split_and!; [done|done|lia|done].
  - rewrite Z.max_l by lia. split_and!; [done|done|lia|lia].
Qed.

(** C9. When the memory map cannot be created, or when it can but the
    allocator cannot be built on it, [Create] logs an error about the space
    and returns null to its caller: the run ends in a return, not in an
    abort. *)
Theorem Create_failure_returns_null (env : Env R) (name : string)
    (initial_size growth_limit capacity requested_begin : Z) (low_memory_mode : bool) :
  CreateMemMap env name kPageSize initial_size growth_limit capacity requested_begin = None
  ∨ (∃ mem_map,
       CreateMemMap env name kPageSize initial_size growth_limit capacity requested_begin
       = Some mem_map
       ∧ new_RosAlloc env (map_begin mem_map) kPageSize low_memory_mode = None) →
  (Create env name initial_size growth_limit capacity requested_begin low_memory_mode).2
  = Returned None
  ∧ ∃ line,
      last (Create env name initial_size growth_limit capacity requested_begin
              low_memory_mode).1 = Some line
      ∧ severity line = ERROR ∧ about line = name.
Proof.
  intros [Hmap|(mem_map & Hmap & Hros)]; unfold Create; rewrite Hmap.
  - destruct (vlog_startup env); cbn; eauto.
  - unfold CreateRosAlloc. rewrite Hros.
    destruct (vlog_startup env); cbn; eauto.
Qed.

End footprint_facts.

(** ** The theorems at work on the example heap *)

Lemma example_card_cleared :
  1037 ∈ ModUnionTableReferenceCache.cleared_cards_ example_cleared.2.
Proof. vm_compute. reflexivity. Defined.

(** Card 1037 had the entry [4744; 4748]; after the update it has the one
    qualifying slot 4748, the earlier slots are gone. *)
Lemma UpdateAndMarkReferences_replaces_entry_witness :
  1037 ∈ ModUnionTableReferenceCache.cleared_cards_ example_cleared.2
  ∧ ModUnionTableReferenceCache.references_ example_cleared.2 !! 1037
    = Some [4744; 4748]
  ∧ ModUnionTableReferenceCache.references_
      (ModUnionTableReferenceCache.table_after example_updated) !! 1037
    = Some [4748].
Proof.
  split; [exact example_card_cleared|]. split; [reflexivity|].
  destruct (UpdateAndMarkReferences_replaces_entry
              (consts := example_consts) (collector := example_collector)
              example_visitor 0%nat example_cleared.1 example_cleared.2 1037
              example_card_cleared) as (_ & Hsome & _).
  etransitivity; [apply Hsome; left; eexists; reflexivity|].
  vm_compute. reflexivity.
Defined.

(** The slot 4748 recorded for card 1037 holds 8208, which is not null. *)
Lemma UpdateAndMarkReferences_never_null_witness :
  memory example_cleared.1 4748 ≠ nullptr
  ∧ ∃ obj offset, offset ∈ ref_offsets (Collector := example_collector) obj
                  ∧ 4748 = GetFieldObjectAddr obj offset
                  ∧ AddReference (Collector := example_collector) obj
                      (memory example_cleared.1 4748) = true.
Proof.
  destruct (UpdateAndMarkReferences_never_null
              (consts := example_consts) (collector := example_collector)
              example_visitor 0%nat example_cleared.1 example_cleared.2
              example_cardcache) as (Hrec & _).
  apply (Hrec 1037 [4748] 4748).
  - exact example_card_cleared.
  - vm_compute. reflexivity.
  - apply list_elem_of_here.
Defined.

(** The object at 4112 refers to 8208 from its second field, the table
    records only the slot of its first field: [Verify] aborts. *)
Lemma Verify_aborts_on_escaped_reference_witness :
  ∃ obj ref,
    ModUnionTableReferenceCache.escaped
      (consts := example_consts) (collector := example_collector)
      example_heap_escaped example_refcache_escaped obj ref
    ∧ ModUnionTableReferenceCache.Verify
        (consts := example_consts) (collector := example_collector)
        example_heap_escaped example_refcache_escaped
      = (ModUnionTableReferenceCache.fatal_log obj ref, Aborted).
Proof.
  destruct (Verify_aborts_on_escaped_reference
              (consts := example_consts) (collector := example_collector)
              example_heap_escaped example_refcache_escaped) as (_ & Hfatal & _).
  apply Hfatal.
  - intros card slots slot Hcard Hslot.
    change (({[1032 := [4120]]} : gmap Z (list Z)) !! card = Some slots) in Hcard.
    apply lookup_singleton_Some in Hcard as [<- <-].
    apply list_elem_of_singleton in Hslot as ->.
    vm_compute. reflexivity.
  - exists 4112, 8208, 1032, [4120], 12. split_and!.
    + vm_compute. reflexivity.
    + reflexivity.
    + vm_compute. apply list_elem_of_here.
    + vm_compute. apply list_elem_of_further, list_elem_of_here.
    + reflexivity.
    + discriminate.
    + reflexivity.
    + vm_compute. intros [=]%list_elem_of_singleton.
Defined.

(** The scenario of the spec: capacity 16 MiB, soft limit 1 MiB, an 8 MiB
    object. The allocation succeeds and the limit ends at the footprint of
    8 MiB. *)
Lemma AllocWithGrowth_footprint_limit_witness :
  (RosAllocSpace.AllocWithGrowth false example_Capacity 8388608 example_rosalloc_space).2
  = Returned (65536, 8388608)
  ∧ RosAllocSpace.GetFootprintLimit
      (RosAllocSpace.AllocWithGrowth false example_Capacity 8388608
         example_rosalloc_space).1
    = 8388608.
Proof.
  split; [reflexivity|].
  destruct (AllocWithGrowth_footprint_limit simple_laws false example_Capacity
              8388608 example_rosalloc_space) as (_ & Hlimit & _).
  etransitivity; [exact Hlimit|]. vm_compute. reflexivity.
Defined.

(** A request of 1024 bytes on an allocator whose footprint is 4096. *)
Lemma SetFootprintLimit_clamps_witness :
  RosAllocSpace.GetFootprintLimit
    (RosAllocSpace.SetFootprintLimit 1024 example_rosalloc_space) = 4096.
Proof.
  destruct (SetFootprintLimit_clamps simple_laws 1024 example_rosalloc_space)
    as (_ & _ & _ & Hclamp).
  etransitivity; [apply Hclamp; vm_compute; reflexivity|]. reflexivity.
Defined.

(** Both failures of [Create], each with a null result. *)
Lemma Create_failure_returns_null_witness :
  (RosAllocSpace.Create env_no_mem_map "alloc space" 1048576 16777216 16777216 65536 false).2
  = Returned None
  ∧ (RosAllocSpace.Create env_no_rosalloc "alloc space" 1048576 16777216 16777216 65536 false).2
    = Returned None.
Proof.
  split.
  - apply (Create_failure_returns_null env_no_mem_map). left. reflexivity.
  - apply (Create_failure_returns_null env_no_rosalloc). right.
    eexists. split; reflexivity.
Defined.

(** ** What an update of the reference cache keeps and what it writes *)

Lemma foldl_invariant_in {S X} (P : S → Prop) (f : S → X → S) (l : list X) :
  (∀ s x, x ∈ l → P s → P (f s x)) → ∀ s, P s → P (foldl f s l).
Proof.
  induction l as [|x l IH]; intros Hf s Hs; simpl; [done|].
  apply IH.
  - intros s' y Hy. apply Hf. by apply list_elem_of_further.
  - apply Hf; [apply list_elem_of_here|done].
Qed.

Lemma foldl_bind {S X Y} (g : S → Y → S) (h : X → list Y) (l : list X) (s : S) :
  foldl (λ s x, foldl g s (h x)) s l = foldl g s (l ≫= h).
Proof.
  revert s. induction l as [|x l IH]; intros s; [done|].
  cbn [foldl]. rewrite IH. change ((x :: l) ≫= h) with (h x ++ (l ≫= h)).
  by rewrite foldl_app.
Qed.

Section more_update_facts.
Context {consts : Consts} {collector : Collector} {A : Type}.
Variable visitor : Z → A → Z * A.
Import ModUnionTableReferenceCache.

Lemma UpdateAndMarkReferences_memory (arg : A) h tbl :
  memory (heap_after (UpdateAndMarkReferences visitor arg h tbl))
  = ms_memory (foldl (mark_slot visitor)
                 {| ms_memory := memory h; ms_arg := arg; ms_calls := [] |}
                 (recorded_slots (recompute h tbl))).
Proof.
  unfold UpdateAndMarkReferences, recorded_slots. cbn [heap_after memory].
  by rewrite <- (foldl_bind (mark_slot visitor) snd).
Qed.

Lemma UpdateAndMarkReferences_calls (arg : A) h tbl :
  visitor_calls (UpdateAndMarkReferences visitor arg h tbl)
  = ms_calls (foldl (mark_slot visitor)
                {| ms_memory := memory h; ms_arg := arg; ms_calls := [] |}
                (recorded_slots (recompute h tbl))).
Proof.
  unfold UpdateAndMarkReferences, recorded_slots. cbn [visitor_calls].
  by rewrite <- (foldl_bind (mark_slot visitor) snd).
Qed.

Lemma mark_slot_memory_other (s : MarkState A) slot a :
  a ≠ slot → ms_memory (mark_slot visitor s slot) a = ms_memory s a.
Proof.
  intros Ha. unfold mark_slot, call_visitor. case_decide; [|done].
  cbn [ms_memory]. case_decide; [by rewrite store_ne|done].
Qed.

Lemma mark_slots_frame l (s : MarkState A) a :
  a ∉ l → ms_memory (foldl (mark_slot visitor) s l) a = ms_memory s a.
Proof.
  revert s. induction l as [|slot l IH]; intros s Ha; [done|].
  apply not_elem_of_cons in Ha as [Hne Ha]. cbn [foldl].
  by rewrite IH, mark_slot_memory_other.
Qed.

Lemma elem_of_recorded_slots (references : gmap Z (list Z)) slot :
  slot ∈ recorded_slots references
  ↔ ∃ card slots, references !! card = Some slots ∧ slot ∈ slots.
Proof.
  unfold recorded_slots. rewrite list_elem_of_bind. split.
  - intros ([card slots] & Hslot & Hcard%elem_of_map_iter). eauto.
  - intros (card & slots & Hcard%elem_of_map_iter & Hslot).
    exists (card, slots). done.
Qed.

(** X1. The first loop of [UpdateAndMarkReferences] only touches the entries
    of the cards that were cleared: the entry of any other card, present or
    not, is as before. *)
Theorem UpdateAndMarkReferences_other_cards (arg : A) (h : Heap) (tbl : t) (card : Z) :
  card ∉ cleared_cards_ tbl →
  references_ (table_after (UpdateAndMarkReferences visitor arg h tbl)) !! card
  = references_ tbl !! card.
Proof.
  intros Hc. cbn [UpdateAndMarkReferences table_after references_].
  by rewrite recompute_lookup, decide_False.
Qed.

(** X2. [UpdateAndMarkReferences] never removes an entry from the references
    map: a card that had one keeps one, even when nothing qualifies any more
    (the entry is then empty). A card that has an entry afterwards had one
    before or was cleared, and a card that had none never gets an empty
    one. *)
Theorem UpdateAndMarkReferences_keeps_entries (arg : A) (h : Heap) (tbl : t) (card : Z) :
  (is_Some (references_ tbl !! card) →
   is_Some (references_ (table_after (UpdateAndMarkReferences visitor arg h tbl)) !! card))
  ∧ (is_Some (references_ (table_after (UpdateAndMarkReferences visitor arg h tbl)) !! card) →
     is_Some (references_ tbl !! card) ∨ card ∈ cleared_cards_ tbl)
  ∧ (references_ tbl !! card = None →
     references_ (table_after (UpdateAndMarkReferences visitor arg h tbl)) !! card
     ≠ Some []).
Proof.
  cbn [UpdateAndMarkReferences table_after references_].
  rewrite recompute_lookup. unfold entry_after.
  destruct (decide (card ∈ cleared_cards_ tbl)) as [Hc|Hc].
  - destruct (references_ tbl !! card) as [old|] eqn:Hold.
    + split_and!; [eauto|eauto|done].
    + split_and!; [by intros [? ?]|auto|].
      intros _. case_bool_decide; congruence.
  - split_and!; [done|auto|]. intros ->. done.
Qed.

(** X3. A visitor that moves nothing leaves the memory as it was, in the
    reference cache and in the card cache: no slot is written unless the
    visitor returns a different object. *)
Theorem UpdateAndMarkReferences_still (arg : A) (h : Heap) (rc : t)
    (cc : ModUnionTableCardCache.t) :
  (∀ obj a, (visitor obj a).1 = obj) →
  memory (heap_after (UpdateAndMarkReferences visitor arg h rc)) = memory h
  ∧ ms_memory (ModUnionTableCardCache.UpdateAndMarkReferences visitor arg h cc)
    = memory h.
Proof.
  intros Hstill.
  assert (Hcall : ∀ slot obj (s : MarkState A),
            ms_memory (call_visitor visitor slot obj s) = ms_memory s).
  { intros. unfold call_visitor. cbn [ms_memory]. by rewrite Hstill, decide_False by auto. }
  split.
  - rewrite UpdateAndMarkReferences_memory.
    apply (foldl_invariant (λ s, ms_memory s = memory h)); [|done].
    intros s slot Hs. unfold mark_slot. case_decide; [by rewrite Hcall|done].
  - unfold ModUnionTableCardCache.UpdateAndMarkReferences.
    apply (foldl_invariant (λ s, ms_memory s = memory h)); [|done].
    intros s card Hs.
    apply (foldl_invariant (λ s, ms_memory s = memory h)); [|done].
    clear s Hs. intros s root Hs.
    apply (foldl_invariant (λ s, ms_memory s = memory h)); [|done].
    clear s Hs. intros s offset Hs.
    unfold ModUnionUpdateObjectReferencesVisitor. case_decide; [by rewrite Hcall|done].
Qed.

(** X4. An update writes nowhere else than it should: in the reference cache
    only recorded slots can change, in the card cache only fields of live
    objects under cleared cards. *)
Theorem UpdateAndMarkReferences_writes_only_slots (arg : A) (h : Heap) (rc : t)
    (cc : ModUnionTableCardCache.t) (addr : Z) :
  (addr ∉ recorded_slots
            (references_ (table_after (UpdateAndMarkReferences visitor arg h rc))) →
   memory (heap_after (UpdateAndMarkReferences visitor arg h rc)) addr = memory h addr)
  ∧ (addr ∉ scanned_fields h cc →
     ms_memory (ModUnionTableCardCache.UpdateAndMarkReferences visitor arg h cc) addr
     = memory h addr).
Proof.
  split.
  - intros Ha. rewrite UpdateAndMarkReferences_memory. by rewrite mark_slots_frame.
  - intros Ha. unfold ModUnionTableCardCache.UpdateAndMarkReferences.
    apply (foldl_invariant_in (λ s, ms_memory s addr = memory h addr)); [|done].
    intros s card Hcard Hs.
    apply (foldl_invariant_in (λ s, ms_memory s addr = memory h addr)); [|done].
    clear s Hs. intros s root Hroot Hs.
    apply (foldl_invariant_in (λ s, ms_memory s addr = memory h addr)); [|done].
    clear s Hs. intros s offset Hoffset Hs.
    unfold ModUnionUpdateObjectReferencesVisitor. case_decide; [|done].
    unfold call_visitor. cbn [ms_memory]. case_decide; [|done].
    rewrite store_ne; [done|]. intros ->. apply Ha.
    unfold scanned_fields. apply list_elem_of_bind. exists card. split; [|done].
    apply list_elem_of_bind. exists root. split; [|done].
    apply list_elem_of_fmap. eauto.
Qed.

End more_update_facts.

(** ** What the second loop of the reference cache calls and writes *)

Section slot_facts.
Context {consts : Consts} {collector : Collector} {A : Type}.
Variable visitor : Z → A → Z * A.
Import ModUnionTableReferenceCache.

Lemma mark_slot_memory_same (f : Z → Z) (s : MarkState A) slot :
  (∀ obj a, (visitor obj a).1 = f obj) →
  ms_memory (mark_slot visitor s slot) slot
  = if decide (ms_memory s slot ≠ nullptr) then f (ms_memory s slot)
    else ms_memory s slot.
Proof.
  intros Hf. unfold mark_slot, call_visitor. case_decide; [|done].
  cbn [ms_memory]. rewrite Hf. case_decide as Hm; [by rewrite store_eq|].
  destruct (decide (f (ms_memory s slot) = ms_memory s slot)) as [->|]; done.
Qed.

Lemma mark_slots_moved (f : Z → Z) l (s : MarkState A) a :
  (∀ obj a, (visitor obj a).1 = f obj) →
  NoDup l →
  ms_memory (foldl (mark_slot visitor) s l) a
  = if decide (a ∈ l ∧ ms_memory s a ≠ nullptr) then f (ms_memory s a)
    else ms_memory s a.
Proof.
  intros Hf. revert s. induction l as [|slot l IH]; intros s Hnd.
  { rewrite decide_False; [done|]. intros [[]%elem_of_nil _]. }
  apply NoDup_cons in Hnd as [Hslot Hnd]. cbn [foldl]. rewrite IH by done.
  destruct (decide (a = slot)) as [->|Hne].
  - rewrite decide_False by naive_solver.
    rewrite (mark_slot_memory_same f) by done.
    apply decide_ext. rewrite elem_of_cons. naive_solver.
  - rewrite mark_slot_memory_other by done.
    apply decide_ext. rewrite elem_of_cons. naive_solver.
Qed.

Lemma mark_slot_calls (s : MarkState A) slot :
  ms_calls (mark_slot visitor s slot)
  = ms_calls s ++ filter (λ obj, obj ≠ nullptr) [ms_memory s slot].
Proof.
  unfold mark_slot. cbv zeta.
  destruct (decide (ms_memory s slot ≠ nullptr)) as [Hn|Hn].
  - by rewrite filter_cons_True.
  - rewrite filter_cons_False by exact Hn.
    by rewrite filter_nil, app_nil_r.
Qed.

Lemma mark_slots_calls l (s : MarkState A) :
  NoDup l →
  ms_calls (foldl (mark_slot visitor) s l)
  = ms_calls s ++ filter (λ obj, obj ≠ nullptr) (ms_memory s <$> l).
Proof.
  revert s. induction l as [|slot l IH]; intros s Hnd.
  { by rewrite app_nil_r. }
  apply NoDup_cons in Hnd as [Hslot Hnd]. cbn [foldl]. rewrite IH by done.
  rewrite mark_slot_calls, <- app_assoc. f_equal.
  rewrite fmap_cons. change (ms_memory s slot :: (ms_memory s <$> l))
    with ([ms_memory s slot] ++ (ms_memory s <$> l)).
  rewrite filter_app. f_equal. f_equal.
  apply Forall_fmap_ext_1, Forall_forall. intros a Ha.
  apply mark_slot_memory_other. by intros ->.
Qed.

Lemma count_recorded_slots (l : list (Z * list Z)) n :
  foldl (λ n (ref : Z * list Z), n + Z.of_nat (length ref.2)) n l
  = n + Z.of_nat (length (l ≫= snd)).
Proof.
  revert n. induction l as [|ref l IH]; intros n.
  { change (n = n + Z.of_nat 0). lia. }
  cbn [foldl]. rewrite IH, bind_cons, length_app. lia.
Qed.

(** X5. A visitor that moves every object [obj] to [f obj] leaves in every
    recorded slot that held a reference the moved reference, provided no slot
    is recorded twice; slots holding null and all other addresses keep their
    content. *)
Theorem UpdateAndMarkReferences_moves_slots (f : Z → Z) (arg : A) (h : Heap)
    (tbl : t) (addr : Z) :
  (∀ obj a, (visitor obj a).1 = f obj) →
  NoDup (recorded_slots
           (references_ (table_after (UpdateAndMarkReferences visitor arg h tbl)))) →
  memory (heap_after (UpdateAndMarkReferences visitor arg h tbl)) addr
  = if decide (addr ∈ recorded_slots
                 (references_ (table_after (UpdateAndMarkReferences visitor arg h tbl)))
               ∧ memory h addr ≠ nullptr)
    then f (memory h addr)
    else memory h addr.
Proof.
  intros Hf Hnd. rewrite UpdateAndMarkReferences_memory.
  by rewrite (mark_slots_moved f).
Qed.

(** X6. The reference cache calls the visitor once for each recorded slot
    that holds a reference, on that reference and in the order of the map,
    provided no slot is recorded twice; the count it logs is the number of
    recorded slots, null or not. *)
Theorem UpdateAndMarkReferences_calls_per_slot (arg : A) (h : Heap) (tbl : t) :
  NoDup (recorded_slots
           (references_ (table_after (UpdateAndMarkReferences visitor arg h tbl)))) →
  visitor_calls (UpdateAndMarkReferences visitor arg h tbl)
  = filter (λ obj, obj ≠ nullptr)
      (memory h <$> recorded_slots
         (references_ (table_after (UpdateAndMarkReferences visitor arg h tbl))))
  ∧ count (UpdateAndMarkReferences visitor arg h tbl)
    = Z.of_nat (length (recorded_slots
         (references_ (table_after (UpdateAndMarkReferences visitor arg h tbl))))).
Proof.
  intros Hnd. split.
  - rewrite UpdateAndMarkReferences_calls. by rewrite mark_slots_calls.
  - cbn [UpdateAndMarkReferences count table_after references_].
    unfold recorded_slots. by rewrite count_recorded_slots.
Qed.

(** X7. When every card that has an entry was cleared in this cycle (as in
    the first cycle of a table) and the visitor moves nothing, no reference
    escapes the table that [UpdateAndMarkReferences] leaves: every qualifying
    reference of a live object under a card of the map is held by a slot
    recorded for the card. [Verify] then returns as soon as the recorded
    slots hold live objects. *)
Theorem UpdateAndMarkReferences_then_Verify (arg : A) (h : Heap) (tbl : t) :
  (∀ obj a, (visitor obj a).1 = obj) →
  (∀ card, is_Some (references_ tbl !! card) → card ∈ cleared_cards_ tbl) →
  (∀ obj ref,
     ¬ escaped (heap_after (UpdateAndMarkReferences visitor arg h tbl))
               (table_after (UpdateAndMarkReferences visitor arg h tbl)) obj ref)
  ∧ (all_recorded_live (heap_after (UpdateAndMarkReferences visitor arg h tbl))
                       (table_after (UpdateAndMarkReferences visitor arg h tbl)) →
     Verify (heap_after (UpdateAndMarkReferences visitor arg h tbl))
            (table_after (UpdateAndMarkReferences visitor arg h tbl)) = ret tt).
Proof.
  intros Hstill Hdom.
  assert (Hmem : memory (heap_after (UpdateAndMarkReferences visitor arg h tbl))
                 = memory h).
  { rewrite UpdateAndMarkReferences_memory.
    apply (foldl_invariant (λ s, ms_memory s = memory h)); [|done].
    intros s slot Hs. unfold mark_slot. case_decide; [|done].
    unfold call_visitor. cbn [ms_memory]. by rewrite Hstill, decide_False by auto. }
  assert (Hno : ∀ obj ref,
            ¬ escaped (heap_after (UpdateAndMarkReferences visitor arg h tbl))
                      (table_after (UpdateAndMarkReferences visitor arg h tbl)) obj ref).
  { intros obj ref (card & slots & offset & Hcard & _ & Hobj & Hoff & -> & Hn & Ha & Hr).
    rewrite Hmem in *. apply Hr. apply list_elem_of_fmap.
    exists (GetFieldObjectAddr obj offset). split; [done|].
    cbn [UpdateAndMarkReferences table_after references_ heap_after live_bitmap]
      in Hcard, Hobj.
    rewrite recompute_lookup in Hcard.
    assert (card ∈ cleared_cards_ tbl) as Hc.
    { destruct (decide (card ∈ cleared_cards_ tbl)); [done|]. apply Hdom. eauto. }
    rewrite decide_True in Hcard by done.
    assert (slots = qualifying_slots_of_card h card) as ->.
    { rewrite cards_references_qualifying in Hcard. unfold entry_after in Hcard.
      destruct (references_ tbl !! card); [|case_bool_decide]; congruence. }
    unfold qualifying_slots_of_card. apply list_elem_of_bind. exists obj.
    split; [|done]. apply elem_of_qualifying_slots. eauto. }
  split; [done|]. intros Hlive. unfold Verify.
  apply bind_is_ret_tt. split.
  - by apply check_live_loop_ret.
  - by apply check_card_loop_ret.
Qed.

End slot_facts.

(** ** The two visitors that collect cleared cards *)

Section visitor_facts.
Context {consts : Consts}.

Lemma foldl_ModUnionClearCardVisitor (obs : list (Z * Z * Z)) (cleared : list Z) :
  foldl (λ s (o : Z * Z * Z), ModUnionClearCardVisitor o.1.1 o.1.2 o.2 s) cleared obs
  = cleared ++ ((λ o : Z * Z * Z, o.1.1) <$>
                  filter (λ o : Z * Z * Z, o.1.2 = kCardDirty) obs).
Proof.
  revert cleared. induction obs as [|o obs IH]; intros cleared; cbn [foldl].
  { by rewrite app_nil_r. }
  rewrite IH, filter_cons. unfold ModUnionClearCardVisitor.
  case_decide; [|done]. by rewrite <- app_assoc.
Qed.

(** X8. Run by the same transform, the vector visitor
    [ModUnionClearCardVisitor] collects the cards observed Dirty in scan
    order, after what the vector held; the set that
    [ModUnionClearCardSetVisitor] fills for the card cache is what it held
    before together with the elements of that vector. *)
Theorem ClearCards_visitors_agree (h : Heap) (tbl : ModUnionTableCardCache.t)
    (cleared : list Z) :
  cleared_cards_vector h (ModUnionTableCardCache.space_ tbl) cleared
  = cleared ++ ModUnionTableCardCache.discovered h tbl
  ∧ ModUnionTableCardCache.cleared_cards_ (ModUnionTableCardCache.ClearCards h tbl).2
    = ModUnionTableCardCache.cleared_cards_ tbl
      ∪ list_to_set (cleared_cards_vector h (ModUnionTableCardCache.space_ tbl) []).
Proof.
  assert (Hvec : ∀ cleared,
            cleared_cards_vector h (ModUnionTableCardCache.space_ tbl) cleared
            = cleared ++ ModUnionTableCardCache.discovered h tbl).
  { intros c. unfold cleared_cards_vector, ModifyCardsAtomic.
    rewrite modify_cards_reports. apply foldl_ModUnionClearCardVisitor. }
  split; [apply Hvec|].
  apply set_eq. intros card.
  rewrite elem_of_union, elem_of_list_to_set, Hvec, app_nil_l, elem_of_discovered.
  apply elem_of_ModifyCardsAtomic_cleared.
Qed.

End visitor_facts.

(** ** The taxonomy of spaces and the range of a continuous space *)

(** X9. The type tests of [Space] classify every space type as exactly one
    of image, malloc, bump pointer and large object space; a zygote space is
    a malloc space. *)
Theorem SpaceType_classification (type : SpaceType) :
  length (filter (λ b : bool, b = true)
            [IsImageSpace type; IsMallocSpace type; IsBumpPointerSpace type;
             IsLargeObjectSpace type]) = 1%nat
  ∧ (IsZygoteSpace type = true → IsMallocSpace type = true).
Proof. destruct type; split; done. Qed.

(** X10. In a space with [begin <= end <= limit] the size is at most the
    capacity and every address of the used part [[Begin, End)] is contained.
    What is contained is the whole reserved range [[Begin, Begin + Capacity)]:
    moving the end never changes it. *)
Theorem ContinuousSpace_contains_reserved_range (s : ContinuousSpace) (obj : Z) :
  Begin s ≤ End s ≤ Limit s →
  0 ≤ Size s ≤ Capacity s
  ∧ (Begin s ≤ obj < End s → Contains s obj = true)
  ∧ (Contains s obj = true ↔ Begin s ≤ obj < Begin s + Capacity s)
  ∧ (∀ e, Contains (SetEnd s e) obj = Contains s obj
          ∧ Capacity (SetEnd s e) = Capacity s).
Proof.
  intros Hinv. unfold Size, Capacity, Contains, HasAddress, SetEnd, Begin, End, Limit in *.
  simpl. rewrite andb_true_iff, !bool_decide_eq_true. split_and!; try lia; done.
Qed.

(** ** Creating a RosAlloc space *)

Section create_facts.
Context {R : Type} {ops : RosAlloc.Ops R}.
Import RosAllocSpace.

(** X11. When the memory map is created, the allocator is built and the
    protection of the memory beyond the initial size (if there is any) goes
    through, [Create] returns a space. The space starts at the map, ends one
    page later and is limited by the capacity; it takes the sizes that
    [CreateMemMap] handed back, not the ones requested, and the allocator's
    footprint limit is the initial size. With a capacity of at least a page,
    [begin <= end <= limit]. *)
Theorem Create_success (laws : RosAlloc.Laws R) (env : Env R) (name : string)
    (initial_size growth_limit capacity requested_begin : Z) (low_memory_mode : bool)
    (mem_map : MemMap) (rosalloc : R) :
  CreateMemMap env name kPageSize initial_size growth_limit capacity requested_begin
  = Some mem_map →
  new_RosAlloc env (map_begin mem_map) kPageSize low_memory_mode = Some rosalloc →
  (0 < (map_capacity mem_map - map_initial_size mem_map) `mod` 2 ^ size_t_bits env →
   (check_mprotect env (map_begin mem_map + kPageSize)
      ((map_capacity mem_map - map_initial_size mem_map) `mod` 2 ^ size_t_bits env)).2
   = Returned tt) →
  ∃ log sp,
    Create env name initial_size growth_limit capacity requested_begin low_memory_mode
    = (log, Returned (Some sp))
    ∧ name_ sp = name
    ∧ Begin (space_ sp) = map_begin mem_map
    ∧ End (space_ sp) = map_begin mem_map + kPageSize
    ∧ Limit (space_ sp) = map_begin mem_map + map_capacity mem_map
    ∧ growth_limit_ sp = map_growth_limit mem_map
    ∧ GetFootprintLimit sp = map_initial_size mem_map
    ∧ (kPageSize ≤ map_capacity mem_map →
       Begin (space_ sp) ≤ End (space_ sp) ≤ Limit (space_ sp)).
Proof.
  intros Hmap Hros Hprot. unfold Create, CreateRosAlloc. rewrite Hmap, Hros.
  case_decide as Hsize.
  - specialize (Hprot Hsize).
    destruct (check_mprotect env _ _) as [plog pout]. simpl in Hprot. subst pout.
    destruct (vlog_startup env), (vlog_heap env); cbn;
      (eexists _, _; split; [reflexivity|]);
      cbn; unfold GetFootprintLimit; cbn [rosalloc_];
      rewrite RosAlloc.FootprintLimit_Set;
      unfold kPageSize; split_and!; try done; lia.
  - destruct (vlog_startup env), (vlog_heap env); cbn;
      (eexists _, _; split; [reflexivity|]);
      cbn; unfold GetFootprintLimit; cbn [rosalloc_];
      rewrite RosAlloc.FootprintLimit_Set;
      unfold kPageSize; split_and!; try done; lia.
Qed.


(** X13. After any number of [SetFootprintLimit] calls the last request
    decides: the limit is the larger of the last value asked for and the
    footprint, earlier requests leave no trace, and the footprint is what it
    was. *)
Theorem SetFootprintLimit_last_wins (laws : RosAlloc.Laws R) (xs : list Z) (x : Z)
    (sp : t R) :
  GetFootprintLimit (foldl (λ sp x, SetFootprintLimit x sp) sp (xs ++ [x]))
  = Z.max x (GetFootprint sp)
  ∧ GetFootprint (foldl (λ sp x, SetFootprintLimit x sp) sp (xs ++ [x]))
    = GetFootprint sp.
Proof.
  assert (Hfoot : ∀ l sp0,
            GetFootprint (foldl (λ sp x, SetFootprintLimit x sp) sp0 l) = GetFootprint sp0).
  { intros l. induction l as [|y l IH]; intros sp0; [done|]. cbn [foldl].
    rewrite IH. unfold SetFootprintLimit, GetFootprint. cbn [rosalloc_ with_rosalloc].
    apply RosAlloc.Footprint_Set. }
  split; [|apply Hfoot].
  rewrite foldl_app. cbn [foldl]. unfold SetFootprintLimit at 1.
  unfold GetFootprintLimit. cbn [rosalloc_ with_rosalloc].
  rewrite RosAlloc.FootprintLimit_Set.
  fold (GetFootprint (foldl (λ sp x, SetFootprintLimit x sp) sp xs)).
  rewrite Hfoot. case_decide; lia.
Qed.

End create_facts.

(** ** Freeing a list of objects *)

Section free_facts.
Context {R : Type} {ops : RosAllocSpaceFree.Ops R}.
Variable kDebugSpaces : bool.
Variable kRecentFreeCount : Z.
Variable size_t_bits : Z.
Import RosAllocSpaceFree.





Lemma FreeList_log (sp : ContinuousSpace) (ptrs : list Z) (r : R) :
  (FreeList kDebugSpaces kRecentFreeCount size_t_bits sp ptrs r).1.1
  = mjoin (imap (λ i _, prefetch_at size_t_bits ptrs i) ptrs)
    ++ (if decide (0 < kRecentFreeCount) then RegisterRecentFree <$> ptrs else [])
    ++ (if kDebugSpaces then mjoin (imap (debug_check sp r) ptrs) else [])
    ++ (if kDebugSpaces && negb (bool_decide (num_broken_ptrs sp ptrs = 0%nat))
        then [CheckFailedBroken (num_broken_ptrs sp ptrs)] else []).
Proof.
  unfold FreeList.
  destruct (kDebugSpaces && negb (bool_decide (num_broken_ptrs sp ptrs = 0%nat)));
    cbn [fst]; by rewrite <- ?app_assoc, ?app_nil_r.
Qed.

Lemma elem_of_prefetch_at (ptrs : list Z) (i : nat) (e : Effect) :
  e ∈ prefetch_at size_t_bits ptrs i → ∃ ptr, e = Prefetch ptr ∧ ptr ∈ ptrs.
Proof.
  unfold prefetch_at. cbn [andb kPrefetchDuringRosAllocFreeList].
  case_bool_decide as Hj; [|by intros []%elem_of_nil].
  assert (0 ≤ (Z.of_nat i + 8) `mod` 2 ^ size_t_bits) as Hpos.
  { destruct (decide (2 ^ size_t_bits = 0)) as [->|Hne].
    - rewrite Z.mod_0_r. lia.
    - apply Z.mod_pos_bound. assert (0 ≤ 2 ^ size_t_bits) by (apply Z.pow_nonneg; lia). lia. }
  destruct (ptrs !! Z.to_nat ((Z.of_nat i + 8) `mod` 2 ^ size_t_bits)) as [ptr|] eqn:Hl.
  - intros ->%list_elem_of_singleton. exists ptr. split; [done|].
    by eapply list_elem_of_lookup_2.
  - apply lookup_ge_None in Hl. lia.
Qed.


(** X15. What [FreeList] touches besides the allocator: the prefetch of the
    pointer eight places ahead never reads past the array, only pointers of
    the list are prefetched, a debug build overwrites only objects that are
    in the space, and it logs an error for each pointer that is not, with
    its index. *)
Theorem FreeList_effects (sp : ContinuousSpace) (ptrs : list Z) (r : R) :
  (∀ j, OutOfBoundsRead j
        ∉ (FreeList kDebugSpaces kRecentFreeCount size_t_bits sp ptrs r).1.1)
  ∧ (∀ ptr, Prefetch ptr
            ∈ (FreeList kDebugSpaces kRecentFreeCount size_t_bits sp ptrs r).1.1 →
            ptr ∈ ptrs)
  ∧ (∀ ptr value size,
       Memset ptr value size
       ∈ (FreeList kDebugSpaces kRecentFreeCount size_t_bits sp ptrs r).1.1 →
       kDebugSpaces = true ∧ ptr ∈ ptrs ∧ Contains sp ptr = true
       ∧ size = UsableSize r ptr)
  ∧ (∀ i ptr,
       LogNotInBounds i ptr
       ∈ (FreeList kDebugSpaces kRecentFreeCount size_t_bits sp ptrs r).1.1
       ↔ kDebugSpaces = true ∧ ptrs !! i = Some ptr ∧ Contains sp ptr = false).
Proof.
  rewrite FreeList_log.
  assert (Hpre : ∀ e, e ∈ mjoin (imap (λ i _, prefetch_at size_t_bits ptrs i) ptrs) →
                      ∃ ptr, e = Prefetch ptr ∧ ptr ∈ ptrs).
  { intros e (l & He & (i & y & -> & _)%elem_of_lookup_imap)%list_elem_of_join.
    by apply elem_of_prefetch_at in He. }
  assert (Hrec : ∀ e, e ∈ (if decide (0 < kRecentFreeCount)
                           then RegisterRecentFree <$> ptrs else []) →
                      ∃ ptr, e = RegisterRecentFree ptr).
  { intros e. case_decide; [|by intros []%elem_of_nil].
    intros (ptr & -> & _)%list_elem_of_fmap. eauto. }
  assert (Hdbg : ∀ e, e ∈ (if kDebugSpaces then mjoin (imap (debug_check sp r) ptrs)
                           else [])
                      ↔ kDebugSpaces = true
                        ∧ ∃ i ptr, ptrs !! i = Some ptr ∧ e ∈ debug_check sp r i ptr).
  { intros e. destruct kDebugSpaces.
    - rewrite list_elem_of_join. setoid_rewrite elem_of_lookup_imap. naive_solver.
    - rewrite elem_of_nil. naive_solver. }
  assert (Hchk : ∀ e, e ∈ (if kDebugSpaces
                              && negb (bool_decide (num_broken_ptrs sp ptrs = 0%nat))
                           then [CheckFailedBroken (num_broken_ptrs sp ptrs)] else []) →
                      ∃ n, e = CheckFailedBroken n).
  { intros e. destruct (_ && _); [|by intros []%elem_of_nil].
    intros ->%list_elem_of_singleton. eauto. }
  split_and!.
  - intros j. rewrite !elem_of_app, Hdbg.
    intros [(? & ? & _)%Hpre|[(? & ?)%Hrec|[(_ & i & ptr & _ & He)|(? & ?)%Hchk]]];
      try discriminate.
    unfold debug_check in He.
    destruct (Contains sp ptr); apply list_elem_of_singleton in He; discriminate.
  - intros ptr. rewrite !elem_of_app, Hdbg.
    intros [(? & [= <-] & ?)%Hpre|[(? & ?)%Hrec|[(_ & i & p & _ & He)|(? & ?)%Hchk]]];
      try done.
    unfold debug_check in He.
    destruct (Contains sp p); apply list_elem_of_singleton in He; discriminate.
  - intros ptr value size. rewrite !elem_of_app, Hdbg.
    intros [(? & ? & _)%Hpre|[(? & ?)%Hrec|[(Hd & i & p & Hl & He)|(? & ?)%Hchk]]];
      try discriminate.
    unfold debug_check in He.
    destruct (Contains sp p) eqn:Hc; apply list_elem_of_singleton in He;
      [|discriminate].
    injection He as -> -> ->. split_and!; try done. by eapply list_elem_of_lookup_2.
  - intros i ptr. rewrite !elem_of_app, Hdbg. split.
    + intros [(? & ? & _)%Hpre|[(? & ?)%Hrec|[(Hd & j & p & Hl & He)|(? & ?)%Hchk]]];
        try discriminate.
      unfold debug_check in He.
      destruct (Contains sp p) eqn:Hc; apply list_elem_of_singleton in He;
        [discriminate|].
      injection He as -> ->. done.
    + intros (Hd & Hl & Hc). right. right. left. split; [done|].
      exists i, ptr. split; [done|]. unfold debug_check. rewrite Hc.
      apply list_elem_of_here.
Qed.

End free_facts.

(** ** The further theorems at work on the examples *)

(** Card 1032 was not cleared: its entry stays. *)
Lemma UpdateAndMarkReferences_other_cards_witness :
  ModUnionTableReferenceCache.references_
    (ModUnionTableReferenceCache.table_after
       (ModUnionTableReferenceCache.UpdateAndMarkReferences
          (consts := example_consts) (collector := example_collector)
          example_visitor 0%nat example_heap_escaped example_refcache_escaped))
  !! 1032 = Some [4120].
Proof.
  etransitivity.
  - apply (UpdateAndMarkReferences_other_cards
             (consts := example_consts) (collector := example_collector)
             example_visitor 0%nat example_heap_escaped example_refcache_escaped 1032).
    vm_compute. intros [=].
  - reflexivity.
Defined.

(** A visitor that returns what it is given leaves slot 4748 alone. *)
Lemma UpdateAndMarkReferences_still_witness :
  memory (ModUnionTableReferenceCache.heap_after
            (ModUnionTableReferenceCache.UpdateAndMarkReferences
               (consts := example_consts) (collector := example_collector)
               example_visitor_still 0%nat example_cleared.1 example_cleared.2))
  = memory example_cleared.1.
Proof.
  apply (UpdateAndMarkReferences_still
           (consts := example_consts) (collector := example_collector)
           example_visitor_still 0%nat example_cleared.1 example_cleared.2
           example_cardcache).
  intros obj a. reflexivity.
Defined.

Lemma example_updated_NoDup :
  NoDup (recorded_slots
           (ModUnionTableReferenceCache.references_
              (ModUnionTableReferenceCache.table_after example_updated))).
Proof. vm_compute. apply NoDup_singleton. Defined.

(** The object at 8208 moved to 8300: slot 4748 follows. *)
Lemma UpdateAndMarkReferences_moves_slots_witness :
  memory (ModUnionTableReferenceCache.heap_after example_updated) 4748 = 8300.
Proof.
  etransitivity.
  - apply (UpdateAndMarkReferences_moves_slots
             (consts := example_consts) (collector := example_collector)
             example_visitor example_move 0%nat example_cleared.1 example_cleared.2 4748).
    + intros obj a. reflexivity.
    + exact example_updated_NoDup.
  - vm_compute. reflexivity.
Defined.

(** One recorded slot, one call. *)
Lemma UpdateAndMarkReferences_calls_per_slot_witness :
  ModUnionTableReferenceCache.visitor_calls example_updated = [8208]
  ∧ ModUnionTableReferenceCache.count example_updated = 1.
Proof.
  destruct (UpdateAndMarkReferences_calls_per_slot
              (consts := example_consts) (collector := example_collector)
              example_visitor 0%nat example_cleared.1 example_cleared.2
              example_updated_NoDup) as [Hcalls Hcount].
  split.
  - etransitivity; [exact Hcalls|]. vm_compute. reflexivity.
  - etransitivity; [exact Hcount|]. vm_compute. reflexivity.
Defined.

(** A first cycle on the example heap leaves a table that [Verify]
    accepts. *)
Lemma UpdateAndMarkReferences_then_Verify_witness :
  ModUnionTableReferenceCache.Verify
    (consts := example_consts) (collector := example_collector)
    (ModUnionTableReferenceCache.heap_after
       (ModUnionTableReferenceCache.UpdateAndMarkReferences
          (consts := example_consts) (collector := example_collector)
          example_visitor_still 0%nat example_heap example_refcache_fresh))
    (ModUnionTableReferenceCache.table_after
       (ModUnionTableReferenceCache.UpdateAndMarkReferences
          (consts := example_consts) (collector := example_collector)
          example_visitor_still 0%nat example_heap example_refcache_fresh))
  = ret tt.
Proof.
  apply (UpdateAndMarkReferences_then_Verify
           (consts := example_consts) (collector := example_collector)
           example_visitor_still 0%nat example_heap example_refcache_fresh).
  - intros obj a. reflexivity.
  - intros card [slots Hslots]. vm_compute in Hslots. discriminate.
  - intros card slots slot Hcard Hslot.
    cbn [ModUnionTableReferenceCache.UpdateAndMarkReferences
         ModUnionTableReferenceCache.table_after
         ModUnionTableReferenceCache.references_] in Hcard.
    rewrite recompute_lookup in Hcard. case_decide as Hc; [|discriminate].
    change (card ∈ ({[1032]} ∪ {[1037]} : gset Z)) in Hc.
    apply elem_of_union in Hc as [Hc|Hc]; apply elem_of_singleton in Hc; subst card;
      vm_compute in Hcard; injection Hcard as <-;
      apply list_elem_of_singleton in Hslot; subst slot; vm_compute; reflexivity.
Defined.

(** An address past the end of the example space but below its limit. *)
Lemma ContinuousSpace_contains_reserved_range_witness :
  Contains example_space 5500 = true.
Proof.
  destruct (ContinuousSpace_contains_reserved_range example_space 5500)
    as (_ & _ & Hrange & _).
  - vm_compute. split; discriminate.
  - apply Hrange. vm_compute. split; [discriminate|reflexivity].
Defined.

(** A space of 16 MiB created with an initial size of 1 MiB. *)
Lemma Create_success_witness :
  ∃ log sp,
    RosAllocSpace.Create env_granted "alloc space" 1048576 16777216 16777216 65536 false
    = (log, Returned (Some sp))
    ∧ RosAllocSpace.GetFootprintLimit sp = 1048576.
Proof.
  destruct (Create_success simple_laws env_granted "alloc space"
              1048576 16777216 16777216 65536 false
              {| RosAllocSpace.map_begin := 65536;
                 RosAllocSpace.map_initial_size := 1048576;
                 RosAllocSpace.map_growth_limit := 16777216;
                 RosAllocSpace.map_capacity := 16777216 |}
              {| RosAlloc.base := 65536; RosAlloc.footprint := 4096;
                 RosAlloc.footprint_limit := 4096; RosAlloc.used := 0 |}
              eq_refl eq_refl (λ _, eq_refl))
    as (log & sp & Hcreate & _ & _ & _ & _ & _ & Hlimit & _).
  exists log, sp. split; [exact Hcreate|exact Hlimit].
Defined.

(** Requests of 2 MiB, 8 MiB and then 1024 bytes on a footprint of a page. *)
Lemma SetFootprintLimit_last_wins_witness :
  RosAllocSpace.GetFootprintLimit
    (foldl (λ sp x, RosAllocSpace.SetFootprintLimit x sp) example_rosalloc_space
           ([2097152; 8388608] ++ [1024])) = 4096.
Proof.
  destruct (SetFootprintLimit_last_wins simple_laws [2097152; 8388608] 1024
              example_rosalloc_space) as [Hlimit _].
  etransitivity; [exact Hlimit|]. reflexivity.
Defined.

(** ** Walking a RosAlloc space with the mutators stopped *)

Section walk_facts.
Import RosAllocSpaceWalk.





End walk_facts.
